(** * Entity field descriptors of [bafoundation/entity/_field.py]

    A shallow embedding of the six field classes ([Field],
    [CompoundField], [ListField], [DictField], [CompoundListField],
    [CompoundDictField]) over an explicit model of the Python objects they
    manipulate: documents are lists and dicts living in a store and named
    by address, so that sharing ("by reference") and fresh objects can be
    told apart; failures are exceptions; diagnostics go to a log. *)

From stdpp Require Import base decidable option strings numbers list sets.

Local Open Scope Z_scope.
Local Open Scope nat_scope.

(** ** Python values *)

Abbreviation addr := nat (only parsing).

(** Primitives of the document format (floating-point numbers are left
    out). *)
Inductive prim :=
| PNone
| PBool (b : bool)
| PInt (n : Z)
| PStr (s : string).

(** A datum is a primitive or a reference to a container object. *)
Inductive datum :=
| VPrim (p : prim)
| VRef (a : addr).

(** Dictionary keys of the model: [str] and [int] objects, which are equal
    as keys exactly when they are the same. *)
Inductive key :=
| KStr (s : string)
| KInt (n : Z).

(** Container objects.  A dict is kept in insertion order. *)
Inductive obj :=
| OList (items : list datum)
| ODict (items : list (key * datum)).

#[global] Instance prim_eq_dec : EqDecision prim.
Proof. solve_decision. Defined.
#[global] Instance datum_eq_dec : EqDecision datum.
Proof. solve_decision. Defined.
#[global] Instance key_eq_dec : EqDecision key.
Proof. solve_decision. Defined.
#[global] Instance obj_eq_dec : EqDecision obj.
Proof. solve_decision. Defined.

Definition key_value (k : key) : datum :=
  match k with
  | KStr s => VPrim (PStr s)
  | KInt n => VPrim (PInt n)
  end.

(** Python's [==] between a datum and a primitive: [bool] is an [int]
    ([True == 1]); a container never equals a primitive. *)
Definition prim_int (p : prim) : option Z :=
  match p with
  | PBool b => Some (if b then 1%Z else 0%Z)
  | PInt n => Some n
  | _ => None
  end.

Definition prim_eq (p q : prim) : bool :=
  match p, q with
  | PNone, PNone => true
  | PStr s, PStr t => bool_decide (s = t)
  | _, _ =>
      match prim_int p, prim_int q with
      | Some m, Some n => bool_decide (m = n)
      | _, _ => false
      end
  end.

Definition py_eq (v : datum) (p : prim) : bool :=
  match v with
  | VPrim q => prim_eq q p
  | VRef _ => false
  end.

(** Classes usable as a declared key type. *)
Inductive pytype :=
| Tstr
| Tint
| Tobject
| Tclass (name : string).

(** [isinstance(key, keytype)] *)
Definition isinstance (k : key) (t : pytype) : bool :=
  match t, k with
  | Tobject, _ => true
  | Tstr, KStr _ => true
  | Tint, KInt _ => true
  | _, _ => false
  end.

(** ** Exceptions, diagnostics and the store *)

Inductive exn :=
| TypeError (msg : string)
| ValueError (msg : string)
| AttributeError (msg : string)
| IndexError (msg : string)
| RuntimeError (msg : string)
| RecursionError.

(** One [logging.error] record: the format string and the datum shown. *)
Inductive diag :=
| LogError (fmt : string) (data : datum).

#[global] Instance exn_eq_dec : EqDecision exn.
Proof. solve_decision. Defined.
#[global] Instance diag_eq_dec : EqDecision diag.
Proof. solve_decision. Defined.

Record state := State {
  heap : list obj;        (* container objects, by address *)
  log : list diag;        (* logging.error records, oldest first *)
  stdout : list string    (* lines written by print *)
}.

(** Computations that read and update the store and may raise.  As in
    Python, what was done before a raise stays done. *)
Definition M (A : Type) : Type := state → (exn + A) * state.

Definition ret {A} (x : A) : M A := λ s, (inr x, s).
Definition raise {A} (e : exn) : M A := λ s, (inl e, s).
Definition bind {A B} (m : M A) (k : A → M B) : M B :=
  λ s, match m s with
       | (inl e, s') => (inl e, s')
       | (inr x, s') => k x s'
       end.

Notation "'do' x <- c ; k" := (bind c (λ x, k))
  (at level 10, x name, c at level 100, k at level 200).
Notation "'do_' c ; k" := (bind c (λ _, k))
  (at level 10, c at level 100, k at level 200).

Definition get_heap : M (list obj) := λ s, (inr (heap s), s).
Definition put_heap (h : list obj) : M unit :=
  λ s, (inr tt, State h (log s) (stdout s)).

(** [logging.error(fmt, self, data)] *)
Definition logging_error (fmt : string) (data : datum) : M unit :=
  λ s, (inr tt, State (heap s) (log s ++ [LogError fmt data]) (stdout s)).

(** [print(text, ...)] *)
Definition print (text : string) : M unit :=
  λ s, (inr tt, State (heap s) (log s) (stdout s ++ [text])).

(** A new container object; its address is one no object had before. *)
Definition alloc (o : obj) : M addr :=
  λ s, (inr (length (heap s)), State (heap s ++ [o]) (log s) (stdout s)).

(** The object a datum refers to, if it is a list or a dict.  A reference
    outside the store names no container: it is handled like an object of
    some other class. *)
Definition deref (h : list obj) (v : datum) : option obj :=
  match v with
  | VRef a => h !! a
  | VPrim _ => None
  end.

(** [isinstance(data, list)] and [isinstance(data, dict)], with the items. *)
Definition as_list (h : list obj) (v : datum) : option (list datum) :=
  match deref h v with
  | Some (OList l) => Some l
  | _ => None
  end.

Definition as_dict (h : list obj) (v : datum) : option (list (key * datum)) :=
  match deref h v with
  | Some (ODict d) => Some d
  | _ => None
  end.

(** Truth of a datum, as tested by [not data]. *)
Definition truthy (h : list obj) (v : datum) : bool :=
  match v with
  | VPrim PNone => false
  | VPrim (PBool b) => b
  | VPrim (PInt n) => negb (bool_decide (n = 0%Z))
  | VPrim (PStr s) => negb (bool_decide (s = EmptyString))
  | VRef a =>
      match h !! a with
      | Some (OList l) => negb (bool_decide (l = []))
      | Some (ODict d) => negb (bool_decide (d = []))
      | None => true
      end
  end.

(** [d[k] = v] on the items of a dict: an existing key keeps its place. *)
Fixpoint dict_set (k : key) (v : datum) (d : list (key * datum))
  : list (key * datum) :=
  match d with
  | [] => [(k, v)]
  | (k', v') :: d' =>
      if bool_decide (k' = k) then (k', v) :: d'
      else (k', v') :: dict_set k v d'
  end.

Fixpoint dict_get (k : key) (d : list (key * datum)) : option datum :=
  match d with
  | [] => None
  | (k', v') :: d' => if bool_decide (k' = k) then Some v' else dict_get k d'
  end.

Definition err_not_subscriptable : exn :=
  TypeError "object does not support item assignment".
Definition err_list_index : exn :=
  TypeError "list indices must be integers or slices".
Definition err_index_range : exn :=
  IndexError "list assignment index out of range".
Definition err_not_iterable : exn :=
  TypeError "object is not iterable".
Definition err_no_values : exn :=
  AttributeError "object has no attribute 'values'".

(** The failures and diagnostics of [_field.py]. *)
Definition err_list_expected : exn := TypeError "list value expected".
Definition err_dict_expected : exn := TypeError "dict value expected".
Definition err_invalid_key : exn := TypeError "invalid key type".
Definition err_assign_type : exn :=
  ValueError "Can't assign from object type".
Definition err_assign_unbound : exn :=
  ValueError "Can't assign from unbound object".
Definition err_assign_fields : exn :=
  ValueError "Can't assign from incompatible type; sub-fields do not match.".
Definition err_no_d_value : exn :=
  AttributeError "object has no attribute 'd_value'".
Definition err_set_list_expected : exn :=
  TypeError "CompoundListField expected list value on set.".
Definition err_set_list_children : exn :=
  ValueError "CompoundListField assignment must be a list containing only its existing children.".
Definition err_set_dict_expected : exn :=
  TypeError "CompoundDictField expected dict value on set.".
Definition err_set_dict_children : exn :=
  ValueError "CompoundDictField assignment must be a dict containing only its existing children.".
Definition msg_non_list : string := "Ignoring non-list data for %s: %s".
Definition msg_non_dict : string := "Ignoring non-dict data for %s: %s".
Definition msg_invalid_key : string := "Ignoring invalid key type for %s: %s".

(** [target[k] = v] where [target] is expected to be a dict. *)
Definition setitem (target : datum) (k : key) (v : datum) : M unit :=
  do h <- get_heap;
  match target with
  | VRef a =>
      match h !! a with
      | Some (ODict d) => put_heap (<[a := ODict (dict_set k v d)]> h)
      | Some (OList l) =>
          match k with
          | KInt n =>
              let len := Z.of_nat (length l) in
              if bool_decide (0 ≤ n < len)%Z then
                put_heap (<[a := OList (<[Z.to_nat n := v]> l)]> h)
              else if bool_decide (- len ≤ n < 0)%Z then
                put_heap (<[a := OList (<[Z.to_nat (len + n) := v]> l)]> h)
              else raise err_index_range
          | KStr _ => raise err_list_index
          end
      | None => raise err_not_subscriptable
      end
  | VPrim _ => raise err_not_subscriptable
  end.

(** [data[i] = v] on a list object, [i] in range. *)
Definition list_setitem (a : addr) (i : nat) (v : datum) : M unit :=
  do h <- get_heap;
  match h !! a with
  | Some (OList l) => put_heap (<[a := OList (<[i := v]> l)]> h)
  | _ => raise err_not_subscriptable
  end.

(** The values a [for] loop over [data] visits: the items of a list, the
    keys of a dict, the characters of a string. *)
Fixpoint chars (s : string) : list datum :=
  match s with
  | EmptyString => []
  | String c s' => VPrim (PStr (String c EmptyString)) :: chars s'
  end.

Definition iter (h : list obj) (v : datum) : exn + list datum :=
  match v with
  | VPrim (PStr s) => inr (chars s)
  | VPrim _ => inl err_not_iterable
  | VRef a =>
      match h !! a with
      | Some (OList l) => inr l
      | Some (ODict d) => inr (key_value <$> d.*1)
      | None => inl err_not_iterable
      end
  end.

(** [data.values()] *)
Definition values (h : list obj) (v : datum) : exn + list datum :=
  match as_dict h v with
  | Some d => inr d.*2
  | None => inl err_no_values
  end.

(** Running a body over a list of items, left to right; a raise stops the
    loop.  The items are those the container held when the loop started: a
    body that adds to or removes from the very container being traversed
    is outside the model. *)
Fixpoint for_each {A} (body : A → M unit) (l : list A) : M unit :=
  match l with
  | [] => ret tt
  | x :: l' => do_ body x; for_each body l'
  end.

Definition lift_exn {A} (r : exn + A) : M A :=
  match r with
  | inl e => raise e
  | inr x => ret x
  end.

(** [y.append(v)] on the list object at [a]. *)
Definition list_append (a : addr) (v : datum) : M unit :=
  do h <- get_heap;
  match h !! a with
  | Some (OList l) => put_heap (<[a := OList (l ++ [v])]> h)
  | _ => raise (AttributeError "object has no attribute 'append'")
  end.

(** ** [copy.deepcopy] on documents

    Lists and dicts are rebuilt, primitives (and dict keys) are returned
    as they are; the memo maps an object already met to its copy, which
    keeps sharing and cycles inside the copy.  An object that is neither a
    list nor a dict is treated as atomic.  [fuel] bounds the nesting
    depth, like the interpreter's recursion limit. *)

Definition memo := list (addr * addr).

Fixpoint memo_get (a : addr) (m : memo) : option addr :=
  match m with
  | [] => None
  | (a0, a') :: m' => if bool_decide (a0 = a) then Some a' else memo_get a m'
  end.

Section deepcopy_loops.
Variable copy : datum → memo → M (datum * memo).

Fixpoint deepcopy_list (y : addr) (l : list datum) (m : memo) : M memo :=
  match l with
  | [] => ret m
  | x :: l' =>
      do r <- copy x m;
      do_ list_append y r.1;
      deepcopy_list y l' r.2
  end.

Fixpoint deepcopy_dict (y : addr) (d : list (key * datum)) (m : memo)
  : M memo :=
  match d with
  | [] => ret m
  | (k, x) :: d' =>
      do r <- copy x m;
      do_ setitem (VRef y) k r.1;
      deepcopy_dict y d' r.2
  end.
End deepcopy_loops.

Fixpoint deepcopy_aux (fuel : nat) (x : datum) (m : memo)
  : M (datum * memo) :=
  match x with
  | VPrim _ => ret (x, m)
  | VRef a =>
      match memo_get a m with
      | Some y => ret (VRef y, m)
      | None =>
          do h <- get_heap;
          match h !! a with
          | None => ret (x, m)
          | Some o =>
              match fuel with
              | 0 => raise RecursionError
              | S fuel' =>
                  match o with
                  | OList l =>
                      do y <- alloc (OList []);
                      do m' <- deepcopy_list (deepcopy_aux fuel') y l
                                 ((a, y) :: m);
                      ret (VRef y, m')
                  | ODict d =>
                      do y <- alloc (ODict []);
                      do m' <- deepcopy_dict (deepcopy_aux fuel') y d
                                 ((a, y) :: m);
                      ret (VRef y, m')
                  end
              end
          end
      end
  end.

(** [copy.deepcopy(x)]: the nesting depth of a document never exceeds the
    number of objects in the store. *)
Definition deepcopy (x : datum) : M datum :=
  do h <- get_heap;
  do r <- deepcopy_aux (length h) x [];
  ret r.1.

(** ** The collaborators of the field classes *)

(** Modelled from the spec: the scalar validator [TypedValue] of
    [_value.py], which is not among the sources.  It works on primitives
    and touches no document: [get_default_data] gives a primitive,
    [filter_input(data, error)] gives the sanitized datum or raises and may
    report diagnostics, [filter_output] converts a stored datum back,
    [prune_data] tells whether the datum may be left out. *)
Module TypedValue.
Record t := {
  get_default_data : prim;
  filter_input : datum → bool → list diag * (exn + datum);
  filter_output : datum → datum;
  prune_data : datum → bool
}.

(** The call [self.filter_input(data, error)] as a computation. *)
Definition call_filter_input (self : t) (data : datum) (error : bool)
  : M datum :=
  λ s, ((filter_input self data error).2,
        State (heap s) (log s ++ (filter_input self data error).1)
              (stdout s)).
End TypedValue.

(** Modelled from the spec: one field descriptor as [get_fields] lists it:
    its key, which of the six variants it is, and its [store_default]
    flag.  Two descriptors are equal when these agree. *)
Inductive field_kind :=
| KField | KCompoundField | KListField | KDictField
| KCompoundListField | KCompoundDictField.

Record descriptor := {
  fd_key : string;
  fd_kind : field_kind;
  fd_store_default : bool
}.

#[global] Instance field_kind_eq_dec : EqDecision field_kind.
Proof. solve_decision. Defined.
#[global] Instance descriptor_eq_dec : EqDecision descriptor.
Proof. solve_decision. Defined.

(** Modelled from the spec: the compound schema [CompoundValue] of
    [_value.py], which is not among the sources.  [ident] is the identity
    of the schema object (what [is] compares); [get_fields] is its ordered
    set of field descriptors; the other methods work on the document slice
    they are given, in place. *)
Module CompoundValue.
Record t := {
  ident : nat;
  get_fields : list descriptor;
  get_default_data : M datum;
  filter_input : datum → bool → M datum;
  prune_data : datum → M bool;
  prune_fields_data : datum → M unit
}.

(** [a is b] *)
Definition is_ (a b : t) : bool := bool_decide (ident a = ident b).
End CompoundValue.

(** The objects that reach [__set__]: a document datum, a
    [BoundCompoundValue] (schema and document slice), or an instance of a
    [CompoundValue] class (itself the schema; its [d_data] and [d_value]
    attributes may be missing). *)
Inductive pyobj :=
| PyData (v : datum)
| PyBound (d_value : CompoundValue.t) (d_data : datum)
| PyCompound (cv : CompoundValue.t) (d_data : option datum)
    (has_d_value : bool).

(** What is assigned: one such object, or a list or dict of them built by
    the caller. *)
Inductive pyval :=
| PyObj (o : pyobj)
| PyList (items : list pyobj)
| PyDict (items : list (key * pyobj)).

(** [isinstance(i, BoundCompoundValue)] *)
Definition is_bound (i : pyobj) : bool :=
  match i with
  | PyBound _ _ => true
  | _ => false
  end.

(** [i.d_value is schema], asked of bound views only. *)
Definition is_child (schema : CompoundValue.t) (i : pyobj) : bool :=
  match i with
  | PyBound dv _ => CompoundValue.is_ dv schema
  | _ => false
  end.

(** [i.d_data], read from bound views only. *)
Definition slice (i : pyobj) : datum :=
  match i with
  | PyBound _ d => d
  | PyCompound _ (Some d) _ => d
  | PyCompound _ None _ => VPrim PNone
  | PyData v => v
  end.

(** The dict a comprehension [{k: v for ...}] builds from its pairs. *)
Definition dict_of (items : list (key * datum)) : list (key * datum) :=
  foldl (λ d kv, dict_set kv.1 kv.2 d) [] items.

(** [getattr(value, 'd_data', None)] *)
Definition getattr_d_data (value : pyval) : option datum :=
  match value with
  | PyObj (PyBound _ d) => Some d
  | PyObj (PyCompound _ d _) => d
  | _ => None
  end.

(** [isinstance(value, list)], with the items. *)
Definition py_list (h : list obj) (value : pyval) : option (list pyobj) :=
  match value with
  | PyList l => Some l
  | PyObj (PyData v) => fmap (M := list) PyData <$> as_list h v
  | _ => None
  end.

(** [isinstance(value, dict)], with the items. *)
Definition py_dict (h : list obj) (value : pyval)
  : option (list (key * pyobj)) :=
  match value with
  | PyDict d => Some d
  | PyObj (PyData v) => fmap (M := list) (prod_map id PyData) <$> as_dict h v
  | _ => None
  end.

(** The entity instance a descriptor is accessed on: [obj.d_data] is its
    root document. *)
Record entity := { d_data : datum }.

(** ** The field classes *)

(** In-place filtering of the items of the list at [a], as
    [for i, entry in enumerate(data): data[i] = f(entry)]: entry [i] is
    read, filtered, and written back before entry [i + 1] is read. *)
Fixpoint filter_entries (f : datum → M datum) (a : addr) (i : nat)
  (entries : list datum) : M unit :=
  match entries with
  | [] => ret tt
  | entry :: rest =>
      do v <- f entry;
      do_ list_setitem a i v;
      filter_entries f a (S i) rest
  end.

(** The loop over [data.items()] that fills [data_out]; [shown] is the
    datum the diagnostic displays. *)
Fixpoint filter_items (keytype : pytype) (f : datum → M datum) (error : bool)
  (shown : datum) (data_out : addr) (items : list (key * datum)) : M unit :=
  match items with
  | [] => ret tt
  | (k, val) :: rest =>
      if negb (isinstance k keytype) then
        if error then raise err_invalid_key
        else
          do_ logging_error msg_invalid_key shown;
          filter_items keytype f error shown data_out rest
      else
        do v <- f val;
        do_ setitem (VRef data_out) k v;
        filter_items keytype f error shown data_out rest
  end.

(** The guard on the input of the list variants: the list itself, or a
    raise, or a diagnostic and a new empty list. *)
Definition expect_list (data : datum) (error : bool) : M addr :=
  do h <- get_heap;
  match data, as_list h data with
  | VRef a, Some _ => ret a
  | _, _ =>
      if error then raise err_list_expected
      else
        do_ logging_error msg_non_list data;
        alloc (OList [])
  end.

(** The same guard for the dict variants. *)
Definition expect_dict (data : datum) (error : bool) : M addr :=
  do h <- get_heap;
  match data, as_dict h data with
  | VRef a, Some _ => ret a
  | _, _ =>
      if error then raise err_dict_expected
      else
        do_ logging_error msg_non_dict data;
        alloc (ODict [])
  end.

(** ** Read access

    [__get__] reads the root document of the entity and changes nothing, so
    it is a function of the store.  Beside the failures of [exn] it can meet
    an [assert] that does not hold and a key the dict does not have. *)
Inductive lookup_failure :=
| AssertionError
| KeyError (k : key)
| Raised (e : exn).

(** [k in s] on strings: [k] occurs in [s]. *)
Fixpoint occurs_in (k s : string) : bool :=
  String.prefix k s
  || match s with
     | EmptyString => false
     | String _ s' => occurs_in k s'
     end.

(** [k in target] for a string [k]: a key of a dict, an item of a list, a
    part of a string. *)
Definition contains (h : list obj) (target : datum) (k : string) : exn + bool :=
  match target with
  | VPrim (PStr s) => inr (occurs_in k s)
  | VPrim _ => inl err_not_iterable
  | VRef a =>
      match h !! a with
      | Some (ODict d) =>
          inr match dict_get (KStr k) d with Some _ => true | None => false end
      | Some (OList l) => inr (bool_decide (VPrim (PStr k) ∈ l))
      | None => inl err_not_iterable
      end
  end.

Definition err_not_indexable : exn :=
  TypeError "object is not subscriptable".
Definition err_string_index : exn :=
  TypeError "string indices must be integers".

(** [target[k]] for a string [k]. *)
Definition getitem (h : list obj) (target : datum) (k : string)
  : lookup_failure + datum :=
  match target with
  | VPrim (PStr _) => inl (Raised err_string_index)
  | VPrim _ => inl (Raised err_not_indexable)
  | VRef a =>
      match h !! a with
      | Some (ODict d) =>
          match dict_get (KStr k) d with
          | Some v => inr v
          | None => inl (KeyError (KStr k))
          end
      | Some (OList _) => inl (Raised err_list_index)
      | None => inl (Raised err_not_indexable)
      end
  end.

(** [assert k in target] followed by [target[k]], assertions being on
    as they are unless the interpreter runs with [-O]. *)
Definition getitem_asserted (h : list obj) (target : datum) (k : string)
  : lookup_failure + datum :=
  match contains h target k with
  | inl e => inl (Raised e)
  | inr false => inl AssertionError
  | inr true => getitem h target k
  end.

(** What [__get__] gives: the descriptor itself when it is read on the
    class ([obj] is [None]), a view when it is read on an instance. *)
Inductive got (F V : Type) :=
| OnClass (self : F)
| OnInstance (view : V).
Arguments OnClass {F V} self.
Arguments OnInstance {F V} view.

(** The bound views of the container fields ([BoundListField] and the
    like, of [_support.py], which is not among the sources), as the
    arguments they are built from: the descriptor and the document slice. *)
Record bound (F : Type) := Bound { b_field : F; b_data : datum }.
Arguments Bound {F} b_field b_data.
Arguments b_field {F} b.
Arguments b_data {F} b.

Module Field.
Record t := {
  d_key : string;
  d_value : TypedValue.t;
  _store_default : bool
}.

Definition get_default_data (self : t) : datum :=
  VPrim (TypedValue.get_default_data (d_value self)).

Definition filter_input (self : t) (data : datum) (error : bool) : M datum :=
  TypedValue.call_filter_input (d_value self) data error.

Definition filter_output (self : t) (data : datum) : datum :=
  TypedValue.filter_output (d_value self) data.

Definition prune_data (self : t) (data : datum) : bool :=
  TypedValue.prune_data (d_value self) data.
End Field.

Module CompoundField.
Record t := {
  d_key : string;
  d_value : CompoundValue.t;
  _store_default : bool
}.

Definition get_default_data (self : t) : M datum :=
  CompoundValue.get_default_data (d_value self).

Definition filter_input (self : t) (data : datum) (error : bool) : M datum :=
  CompoundValue.filter_input (d_value self) data error.

Definition prune_data (self : t) (data : datum) : M bool :=
  CompoundValue.prune_data (d_value self) data.

Definition __get__ (self : t) (h : list obj) (obj : option entity)
  : lookup_failure + got t pyobj :=
  match obj with
  | None => inr (OnClass self)
  | Some obj =>
      match getitem_asserted h (d_data obj) (d_key self) with
      | inl e => inl e
      | inr slice => inr (OnInstance (PyBound (d_value self) slice))
      end
  end.

Definition __set__ (self : t) (obj : entity) (value : pyval) : M unit :=
  do value1 <-
    match value with
    | PyObj (PyBound dv _) => ret dv
    | PyObj (PyCompound cv _ _) => ret cv
    | _ => raise err_assign_type
    end;
  match getattr_d_data value with
  | None | Some (VPrim PNone) =>
      raise err_assign_unbound
  | Some data =>
      if negb (bool_decide (CompoundValue.get_fields (d_value self)
                            = CompoundValue.get_fields value1))
      then
        (* the message reads value.d_value *)
        match value with
        | PyObj (PyCompound _ _ false) =>
            raise err_no_d_value
        | _ =>
            raise err_assign_fields
        end
      else
        do copied <- deepcopy data;
        setitem (d_data obj) (KStr (d_key self)) copied
  end.
End CompoundField.

Module ListField.
Record t := {
  d_key : string;
  d_value : TypedValue.t;
  _store_default : bool
}.

Definition get_default_data (self : t) : M datum :=
  do a <- alloc (OList []); ret (VRef a).

Definition filter_input (self : t) (data : datum) (error : bool) : M datum :=
  do a <- expect_list data error;
  do h <- get_heap;
  do_ filter_entries
        (λ entry, TypedValue.call_filter_input (d_value self) entry error)
        a 0 (default [] (as_list h (VRef a)));
  ret (VRef a).

Definition prune_data (self : t) (data : datum) : M bool :=
  do h <- get_heap;
  ret (negb (truthy h data) && negb (_store_default self)).

Definition __get__ (self : t) (h : list obj) (obj : option entity)
  : lookup_failure + got t (bound t) :=
  match obj with
  | None => inr (OnClass self)
  | Some obj =>
      match getitem h (d_data obj) (d_key self) with
      | inl e => inl e
      | inr slice => inr (OnInstance (Bound self slice))
      end
  end.
End ListField.

Module DictField.
Record t := {
  d_key : string;
  _keytype : pytype;
  d_value : TypedValue.t;
  _store_default : bool
}.

Definition get_default_data (self : t) : M datum :=
  do a <- alloc (ODict []); ret (VRef a).

Definition filter_input (self : t) (data : datum) (error : bool) : M datum :=
  do a <- expect_dict data error;
  do data_out <- alloc (ODict []);
  do h <- get_heap;
  do_ filter_items (_keytype self)
        (λ val, TypedValue.call_filter_input (d_value self) val error)
        error (VRef a) data_out (default [] (as_dict h (VRef a)));
  ret (VRef data_out).

Definition prune_data (self : t) (data : datum) : M bool :=
  do h <- get_heap;
  ret (negb (truthy h data) && negb (_store_default self)).

Definition __get__ (self : t) (h : list obj) (obj : option entity)
  : lookup_failure + got t (pytype * bound t) :=
  match obj with
  | None => inr (OnClass self)
  | Some obj =>
      match getitem h (d_data obj) (d_key self) with
      | inl e => inl e
      | inr slice => inr (OnInstance (_keytype self, Bound self slice))
      end
  end.
End DictField.

Module CompoundListField.
Record t := {
  d_key : string;
  d_value : CompoundValue.t;
  _store_default : bool
}.

Definition filter_input (self : t) (data : datum) (error : bool) : M datum :=
  do a <- expect_list data error;
  do h <- get_heap;
  do_ filter_entries
        (λ subdata, CompoundValue.filter_input (d_value self) subdata error)
        a 0 (default [] (as_list h (VRef a)));
  ret (VRef a).

Definition get_default_data (self : t) : M datum :=
  do a <- alloc (OList []); ret (VRef a).

Definition prune_data (self : t) (data : datum) : M bool :=
  do h <- get_heap;
  do entries <- lift_exn (iter h data);
  do_ for_each (CompoundValue.prune_fields_data (d_value self)) entries;
  do h' <- get_heap;
  ret (negb (truthy h' data) && negb (_store_default self)).

Definition __get__ (self : t) (h : list obj) (obj : option entity)
  : lookup_failure + got t (bound t) :=
  match obj with
  | None => inr (OnClass self)
  | Some obj =>
      match getitem_asserted h (d_data obj) (d_key self) with
      | inl e => inl e
      | inr slice => inr (OnInstance (Bound self slice))
      end
  end.

Definition __set__ (self : t) (obj : entity) (value : pyval) : M unit :=
  do h <- get_heap;
  match py_list h value with
  | None => raise err_set_list_expected
  | Some items =>
      if negb (forallb is_bound items)
         || negb (forallb (is_child (d_value self)) items)
      then raise err_set_list_children
      else
        do a <- alloc (OList (slice <$> items));
        setitem (d_data obj) (KStr (d_key self)) (VRef a)
  end.
End CompoundListField.

Module CompoundDictField.
Record t := {
  d_key : string;
  d_keytype : pytype;
  d_value : CompoundValue.t;
  _store_default : bool
}.

Definition filter_input (self : t) (data : datum) (error : bool) : M datum :=
  do a <- expect_dict data error;
  do data_out <- alloc (ODict []);
  do h <- get_heap;
  do_ filter_items (d_keytype self)
        (λ val, CompoundValue.filter_input (d_value self) val error)
        error (VRef a) data_out (default [] (as_dict h (VRef a)));
  ret (VRef data_out).

Definition get_default_data (self : t) : M datum :=
  do a <- alloc (ODict []); ret (VRef a).

Definition prune_data (self : t) (data : datum) : M bool :=
  do h <- get_heap;
  do entries <- lift_exn (values h data);
  do_ for_each (CompoundValue.prune_fields_data (d_value self)) entries;
  do h' <- get_heap;
  ret (negb (truthy h' data) && negb (_store_default self)).

Definition __get__ (self : t) (h : list obj) (obj : option entity)
  : lookup_failure + got t (bound t) :=
  match obj with
  | None => inr (OnClass self)
  | Some obj =>
      match getitem_asserted h (d_data obj) (d_key self) with
      | inl e => inl e
      | inr slice => inr (OnInstance (Bound self slice))
      end
  end.

Definition __set__ (self : t) (obj : entity) (value : pyval) : M unit :=
  do h <- get_heap;
  match py_dict h value with
  | None => raise err_set_dict_expected
  | Some items =>
      do_ print "val";
      if negb (forallb (λ i, isinstance i (d_keytype self)) items.*1)
         || negb (forallb is_bound items.*2)
         || negb (forallb (is_child (d_value self)) items.*2)
      then raise err_set_dict_children
      else
        do a <- alloc (ODict (dict_of (prod_map id slice <$> items)));
        setitem (d_data obj) (KStr (d_key self)) (VRef a)
  end.
End CompoundDictField.

(** A field descriptor is one of the six variants. *)
Inductive field :=
| AField (f : Field.t)
| ACompoundField (f : CompoundField.t)
| AListField (f : ListField.t)
| ADictField (f : DictField.t)
| ACompoundListField (f : CompoundListField.t)
| ACompoundDictField (f : CompoundDictField.t).

(** [field.prune_data(data)], whichever the variant. *)
Definition prune_data (f : field) (data : datum) : M bool :=
  match f with
  | AField f => ret (Field.prune_data f data)
  | ACompoundField f => CompoundField.prune_data f data
  | AListField f => ListField.prune_data f data
  | ADictField f => DictField.prune_data f data
  | ACompoundListField f => CompoundListField.prune_data f data
  | ACompoundDictField f => CompoundDictField.prune_data f data
  end.

(** ** Notions used in the statements *)

(** The size of the container a datum refers to. *)
Definition container_size (h : list obj) (data : datum) : option nat :=
  match deref h data with
  | Some (OList l) => Some (length l)
  | Some (ODict d) => Some (length d)
  | None => None
  end.

(** What idempotent pruning asks of the nested schema's pruner [P], for
    the elements [entries] of the container [data]: pruning an element that
    was just pruned changes nothing; an element with nothing left to prune
    stays so while the others are pruned; and pruning an element leaves the
    container itself alone. *)
Record pruner_contract (P : datum → M unit) (data : datum)
  (entries : list datum) : Prop := {
  pc_idem : ∀ v s s',
    v ∈ entries → P v s = (inr tt, s') → P v s' = (inr tt, s');
  pc_stable : ∀ v w s s',
    v ∈ entries → w ∈ entries →
    P v s = (inr tt, s) → P w s = (inr tt, s') → P v s' = (inr tt, s');
  pc_frame : ∀ v s s',
    v ∈ entries → P v s = (inr tt, s') →
    deref (heap s') data = deref (heap s) data
}.

(** What idempotent pruning asks of the collaborators of a field, for the
    datum [data] in the store [h]: nothing of a scalar validator, which
    only reads the datum; of a compound schema, that its own pruning be
    idempotent on [data]; of the schema of a compound list or dict, the
    contract above for the elements of [data]. *)
Definition prune_contract (f : field) (data : datum) (h : list obj) : Prop :=
  match f with
  | AField _ | AListField _ | ADictField _ => True
  | ACompoundField f =>
      ∀ s b s',
        CompoundValue.prune_data (CompoundField.d_value f) data s = (inr b, s') →
        CompoundValue.prune_data (CompoundField.d_value f) data s' = (inr b, s')
  | ACompoundListField f =>
      ∀ entries, iter h data = inr entries →
        pruner_contract
          (CompoundValue.prune_fields_data (CompoundListField.d_value f))
          data entries
  | ACompoundDictField f =>
      ∀ entries, values h data = inr entries →
        pruner_contract
          (CompoundValue.prune_fields_data (CompoundDictField.d_value f))
          data entries
  end.

(** An existing child of a compound list or dict field: a bound view
    whose schema is the very schema object of the field. *)
Definition existing_child (schema : CompoundValue.t) (i : pyobj) : Prop :=
  ∃ dv d, i = PyBound dv d ∧ CompoundValue.ident dv = CompoundValue.ident schema.

(** The store after [obj.d_data[k] = <new object o>], where the root
    document of [obj] is the dict [root] at [r]. *)
Definition store_new (s : state) (r : addr) (root : list (key * datum))
  (k : string) (o : obj) : state :=
  State (<[r := ODict (dict_set (KStr k) (VRef (length (heap s))) root)]>
           (heap s ++ [o]))
        (log s) (stdout s).

(** The two kinds of failure the classes raise themselves. *)
Definition is_type_mismatch (e : exn) : bool :=
  match e with TypeError _ => true | _ => false end.
Definition is_value_mismatch (e : exn) : bool :=
  match e with ValueError _ => true | _ => false end.

(** An entry a compound dict field accepts on assignment. *)
Definition existing_entry (keytype : pytype) (schema : CompoundValue.t)
  (kv : key * pyobj) : Prop :=
  isinstance kv.1 keytype = true ∧ existing_child schema kv.2.

(** The store after the [print] of [CompoundDictField.__set__]. *)
Definition printed (s : state) : state :=
  State (heap s) (log s) (stdout s ++ ["val"]).

(** What the scalar validator makes of an entry: whether it returns, the
    datum it returns (the entry itself stays when it raises), and the
    diagnostics it reports over a run of entries. *)
Definition accepts (tv : TypedValue.t) (error : bool) (x : datum) : bool :=
  match (TypedValue.filter_input tv x error).2 with
  | inr _ => true
  | inl _ => false
  end.

Definition filtered (tv : TypedValue.t) (error : bool) (x : datum) : datum :=
  match (TypedValue.filter_input tv x error).2 with
  | inr v => v
  | inl _ => x
  end.

Definition reports (tv : TypedValue.t) (error : bool) (l : list datum)
  : list diag :=
  concat ((λ x, (TypedValue.filter_input tv x error).1) <$> l).

(** What the loop of [DictField.filter_input] makes of one entry: the
    failure it ends with, if any; the diagnostics it reports; and, over a
    run of entries, the pairs it keeps. *)
Definition entry_failure (keytype : pytype) (tv : TypedValue.t) (error : bool)
  (kv : key * datum) : option exn :=
  if isinstance kv.1 keytype then
    match (TypedValue.filter_input tv kv.2 error).2 with
    | inl e => Some e
    | inr _ => None
    end
  else if error then Some err_invalid_key else None.

Definition entry_reports (keytype : pytype) (tv : TypedValue.t) (error : bool)
  (shown : datum) (kv : key * datum) : list diag :=
  if isinstance kv.1 keytype then (TypedValue.filter_input tv kv.2 error).1
  else if error then [] else [LogError msg_invalid_key shown].

Definition kept (keytype : pytype) (tv : TypedValue.t) (error : bool)
  (items : list (key * datum)) : list (key * datum) :=
  (λ kv, (kv.1, filtered tv error kv.2))
    <$> filter (λ kv, isinstance kv.1 keytype = true) items.

(** ** Notions for the deep copy *)

(** The data an object holds. *)
Definition refs_of (o : obj) : list datum :=
  match o with
  | OList l => l
  | ODict d => d.*2
  end.

(** A datum that refers to nothing beyond the first [n] addresses. *)
Definition bounded (n : nat) (v : datum) : Prop :=
  match v with
  | VRef a => a < n
  | VPrim _ => True
  end.

(** A store in which every reference leads to an object of the store. *)
Definition closed (h : list obj) : Prop :=
  ∀ a o, h !! a = Some o → Forall (bounded (length h)) (refs_of o).

(** A datum that is a primitive or refers to an object at an address from
    [lo] on (and below [hi]): it shares nothing with the objects below
    [lo]. *)
Definition apart (lo hi : nat) (v : datum) : Prop :=
  match v with
  | VRef a => lo ≤ a < hi
  | VPrim _ => True
  end.

(** What holds of the store and the memo all along a deep copy started on
    the store [h0]: the objects of [h0] are as they were; the memo maps
    objects of [h0], each once, to objects made since; and the objects made
    since refer to one another only. *)
Record copy_inv (h0 : list obj) (s : state) (m : memo) : Prop := {
  ci_old : ∀ b, b < length h0 → heap s !! b = h0 !! b;
  ci_len : length h0 ≤ length (heap s);
  ci_memo : ∀ a y, memo_get a m = Some y →
            a < length h0 ∧ length h0 ≤ y < length (heap s);
  ci_new : ∀ b o, length h0 ≤ b → heap s !! b = Some o →
           Forall (apart (length h0) (length (heap s))) (refs_of o);
  ci_nodup : NoDup m.*1
}.

(** The copy of a datum under a memo, and whether the memo knows it. *)
Definition image (m : memo) (v : datum) : datum :=
  match v with
  | VRef a =>
      match memo_get a m with
      | Some y => VRef y
      | None => v
      end
  | VPrim _ => v
  end.

Definition covered (m : memo) (v : datum) : Prop :=
  match v with
  | VRef a => is_Some (memo_get a m)
  | VPrim _ => True
  end.

(** The copy of an object: the same items, each replaced by its copy. *)
Definition image_obj (m : memo) (o : obj) : obj :=
  match o with
  | OList l => OList (image m <$> l)
  | ODict d => ODict (dict_of (prod_map id (image m) <$> d))
  end.

(** The object [a] of [h0] has been copied in full: the memo knows it and
    all it holds, and the object the memo gives for it is its copy. *)
Definition finished (h0 : list obj) (s : state) (m : memo) (a : addr) : Prop :=
  ∃ y o,
    memo_get a m = Some y
    ∧ h0 !! a = Some o
    ∧ heap s !! y = Some (image_obj m o)
    ∧ Forall (covered m) (refs_of o).

(** How store and memo move on during a copy: [copy_inv] is kept, store
    and memo only grow, nothing is logged or printed, the memo keeps what
    it knew, and whatever it has learnt is a new object, copied in full. *)
Record copy_ext (h0 : list obj) (s : state) (m : memo) (s' : state)
  (m' : memo) : Prop := {
  ce_inv : copy_inv h0 s' m';
  ce_memo_len : length m ≤ length m';
  ce_heap_len : length (heap s) ≤ length (heap s');
  ce_log : log s' = log s;
  ce_stdout : stdout s' = stdout s;
  ce_memo : ∀ a y, memo_get a m = Some y → memo_get a m' = Some y;
  ce_new : ∀ a y, memo_get a m = None → memo_get a m' = Some y →
           length (heap s) ≤ y ∧ finished h0 s' m' a
}.

(** What one call of the copier does, given [n] levels of nesting to
    spare: it returns the copy of its argument under the memo it leaves,
    and changes no object that was there when it was called. *)
Definition copies (h0 : list obj) (copy : datum → memo → M (datum * memo))
  (n : nat) : Prop :=
  ∀ x m s,
    copy_inv h0 s m →
    length h0 ≤ n + length m →
    bounded (length h0) x →
    ∃ y m' s',
      copy x m s = (inr (y, m'), s')
      ∧ copy_ext h0 s m s' m'
      ∧ (∀ b, b < length (heap s) → heap s' !! b = heap s !! b)
      ∧ y = image m' x
      ∧ covered m' x.

(** ** Sample collaborators and stores

    Concrete validators, schemas, fields and stores on which the classes
    are run in the examples below. *)

(** A validator for one primitive type: [accepts] recognises the type;
    other input raises when [error] is set and is otherwise reported and
    replaced by the default.  It prunes its default unless its own
    [store_default] flag is set. *)
Definition simple_value (default : prim) (store_default : bool)
  (accepts : prim → bool) : TypedValue.t :=
  {| TypedValue.get_default_data := default;
     TypedValue.filter_input data error :=
       match data with
       | VPrim p =>
           if accepts p then ([], inr data)
           else if error then ([], inl (TypeError "unexpected value type"))
           else ([LogError "Ignoring incompatible data for %s" data],
                 inr (VPrim default))
       | VRef _ =>
           if error then ([], inl (TypeError "unexpected value type"))
           else ([LogError "Ignoring incompatible data for %s" data],
                 inr (VPrim default))
       end;
     TypedValue.filter_output data := data;
     TypedValue.prune_data data := negb store_default && py_eq data default |}.

Definition is_int (p : prim) : bool :=
  match p with PInt _ => true | _ => false end.
Definition is_str (p : prim) : bool :=
  match p with PStr _ => true | _ => false end.

Definition int_value (default : Z) (store_default : bool) : TypedValue.t :=
  simple_value (PInt default) store_default is_int.
Definition string_value (default : string) (store_default : bool)
  : TypedValue.t :=
  simple_value (PStr default) store_default is_str.

(** A [Field] that asks for its default to be stored, over a validator
    that does not. *)
Definition stored_color : Field.t :=
  {| Field.d_key := "color";
     Field.d_value := string_value "red" false;
     Field._store_default := true |}.

(** [del d[k]] on the items of a dict. *)
Definition dict_del (k : key) (d : list (key * datum)) : list (key * datum) :=
  filter (λ kv, kv.1 ≠ k) d.

(** A schema with one scalar field stored under [k]: filtering fills in a
    missing entry and validates a present one, in place; pruning drops the
    entry when the validator says so. *)
Definition record_filter_input (k : string) (tv : TypedValue.t)
  (data : datum) (error : bool) : M datum :=
  do h <- get_heap;
  match data, as_dict h data with
  | VRef a, Some d =>
      match dict_get (KStr k) d with
      | Some v =>
          do v' <- TypedValue.call_filter_input tv v error;
          do_ setitem data (KStr k) v';
          ret data
      | None =>
          do_ setitem data (KStr k) (VPrim (TypedValue.get_default_data tv));
          ret data
      end
  | _, _ =>
      if error then raise err_dict_expected
      else
        do_ logging_error msg_non_dict data;
        do a <- alloc (ODict [(KStr k, VPrim (TypedValue.get_default_data tv))]);
        ret (VRef a)
  end.

Definition record_prune_fields_data (k : string) (tv : TypedValue.t)
  (data : datum) : M unit :=
  do h <- get_heap;
  match data, as_dict h data with
  | VRef a, Some d =>
      match dict_get (KStr k) d with
      | Some v =>
          if TypedValue.prune_data tv v
          then put_heap (<[a := ODict (dict_del (KStr k) d)]> h)
          else ret tt
      | None => ret tt
      end
  | _, _ => ret tt
  end.

Definition record_schema (ident : nat) (k : string) (tv : TypedValue.t)
  : CompoundValue.t :=
  {| CompoundValue.ident := ident;
     CompoundValue.get_fields :=
       [{| fd_key := k; fd_kind := KField; fd_store_default := false |}];
     CompoundValue.get_default_data :=
       (do a <- alloc (ODict [(KStr k, VPrim (TypedValue.get_default_data tv))]);
        ret (VRef a));
     CompoundValue.filter_input := record_filter_input k tv;
     CompoundValue.prune_data data :=
       (do_ record_prune_fields_data k tv data;
        do h <- get_heap;
        ret (negb (truthy h data)));
     CompoundValue.prune_fields_data := record_prune_fields_data k tv |}.

(** The [Car] schema of the examples: a colour, red unless said
    otherwise. *)
Definition car : CompoundValue.t :=
  record_schema 1 "color" (string_value "red" false).

(** A list of two cars, and the field that holds it. *)
Definition garage : CompoundListField.t :=
  {| CompoundListField.d_key := "cars";
     CompoundListField.d_value := car;
     CompoundListField._store_default := false |}.

Definition garage_store : state :=
  State [OList [VRef 1; VRef 2];
         ODict [(KStr "color", VPrim (PStr "red"))];
         ODict [(KStr "color", VPrim (PStr "blue"))]] [] [].

Definition garage_store_pruned : state :=
  State [OList [VRef 1; VRef 2];
         ODict [];
         ODict [(KStr "color", VPrim (PStr "blue"))]] [] [].

(** The store after [record_prune_fields_data]. *)
Definition record_pruned_heap (k : string) (tv : TypedValue.t) (data : datum)
  (h : list obj) : list obj :=
  match data with
  | VRef a =>
      match h !! a with
      | Some (ODict d) =>
          match dict_get (KStr k) d with
          | Some v =>
              if TypedValue.prune_data tv v
              then <[a := ODict (dict_del (KStr k) d)]> h
              else h
          | None => h
          end
      | _ => h
      end
  | VPrim _ => h
  end.

(** A second list field over a schema of its own, with one child, beside
    the garage. *)
Definition truck : CompoundValue.t :=
  record_schema 2 "color" (string_value "red" false).

Definition fleet : entity := {| d_data := VRef 0 |}.

Definition fleet_store : state :=
  State [ODict [(KStr "cars", VRef 1); (KStr "trucks", VRef 3)];
         OList [VRef 2];
         ODict [(KStr "color", VPrim (PStr "blue"))];
         OList [VRef 4];
         ODict [(KStr "color", VPrim (PStr "green"))]] [] [].

(** A dict field of cars by name. *)
Definition named_cars : CompoundDictField.t :=
  {| CompoundDictField.d_key := "named";
     CompoundDictField.d_keytype := Tstr;
     CompoundDictField.d_value := car;
     CompoundDictField._store_default := false |}.

(** A list field of integers. *)
Definition wheels : ListField.t :=
  {| ListField.d_key := "wheels";
     ListField.d_value := int_value 0 false;
     ListField._store_default := false |}.

Definition wheels_store : state :=
  State [OList [VPrim (PInt 4); VPrim (PStr "x"); VPrim (PInt 6)]] [] [].

(** A dict field from names to integers, and a mapping with one key of
    the wrong type. *)
Definition scores : DictField.t :=
  {| DictField.d_key := "scores";
     DictField._keytype := Tstr;
     DictField.d_value := int_value 0 false;
     DictField._store_default := false |}.

Definition scores_store : state :=
  State [ODict [(KInt 5, VPrim (PInt 1)); (KStr "ann", VPrim (PInt 2))]] [] [].

(** A dict of cars by name in a store, one entry being a car document. *)
Definition named_store : state :=
  State [ODict [(KStr "mine", VRef 1)]; ODict []] [] [].

(** A [Vehicle] schema with one field, a [SportsCar] schema that adds one,
    a [CompoundField] of [Vehicle], and an entity of the [SportsCar] class
    with its own live document: an instance of a [CompoundValue] class is
    its own schema and has no [d_value] attribute. *)
Definition vehicle : CompoundValue.t :=
  record_schema 3 "color" (string_value "red" false).

Definition sports_car : CompoundValue.t :=
  {| CompoundValue.ident := 4;
     CompoundValue.get_fields :=
       CompoundValue.get_fields vehicle
       ++ [{| fd_key := "wheels"; fd_kind := KListField;
              fd_store_default := false |}];
     CompoundValue.get_default_data := CompoundValue.get_default_data vehicle;
     CompoundValue.filter_input := CompoundValue.filter_input vehicle;
     CompoundValue.prune_data := CompoundValue.prune_data vehicle;
     CompoundValue.prune_fields_data :=
       CompoundValue.prune_fields_data vehicle |}.

Definition vehicle_field : CompoundField.t :=
  {| CompoundField.d_key := "vehicle";
     CompoundField.d_value := vehicle;
     CompoundField._store_default := false |}.

Definition owner : entity := {| d_data := VRef 0 |}.

Definition owner_store : state :=
  State [ODict [(KStr "vehicle", VRef 1)];
         ODict [(KStr "color", VPrim (PStr "red"))];
         ODict [(KStr "color", VPrim (PStr "blue")); (KStr "wheels", VRef 3)];
         OList [VPrim (PInt 4)]] [] [].

Definition sports_car_entity : pyval :=
  PyObj (PyCompound sports_car (Some (VRef 2)) false).

(** The same document seen through a bound view, and a bound view of a
    plain vehicle document. *)
Definition sports_car_view : pyval := PyObj (PyBound sports_car (VRef 2)).
Definition vehicle_view : pyval := PyObj (PyBound vehicle (VRef 2)).

(** ** Notions for the footprint of an assignment *)

(** A run from [s] to [s'] that leaves the first [n] objects as they
    were, only adds objects, and neither logs nor prints. *)
Definition keeps (n : nat) (s s' : state) : Prop :=
  length (heap s) ≤ length (heap s')
  ∧ (∀ b, b < n → heap s' !! b = heap s !! b)
  ∧ log s' = log s
  ∧ stdout s' = stdout s.

(** Every object of [s] but the root document of [obj] is in [s'] as it
    was. *)
Definition others_kept (obj : entity) (s s' : state) : Prop :=
  ∀ b o, d_data obj ≠ VRef b → heap s !! b = Some o → heap s' !! b = Some o.

(** The fields of [obj] stored under another key than [k] read the same
    in [h'] as in [h], through each of the five descriptors. *)
Definition other_fields_same (k : string) (h h' : list obj) (obj : entity)
  : Prop :=
  (∀ f, CompoundField.d_key f ≠ k →
     CompoundField.__get__ f h' (Some obj) = CompoundField.__get__ f h (Some obj))
  ∧ (∀ f, ListField.d_key f ≠ k →
       ListField.__get__ f h' (Some obj) = ListField.__get__ f h (Some obj))
  ∧ (∀ f, DictField.d_key f ≠ k →
       DictField.__get__ f h' (Some obj) = DictField.__get__ f h (Some obj))
  ∧ (∀ f, CompoundListField.d_key f ≠ k →
       CompoundListField.__get__ f h' (Some obj)
       = CompoundListField.__get__ f h (Some obj))
  ∧ (∀ f, CompoundDictField.d_key f ≠ k →
       CompoundDictField.__get__ f h' (Some obj)
       = CompoundDictField.__get__ f h (Some obj)).

(** A validator that lets its own results through as they are, without a
    report. *)
Definition settled (tv : TypedValue.t) (error : bool) : Prop :=
  ∀ x y,
    (TypedValue.filter_input tv x error).2 = inr y →
    TypedValue.filter_input tv y error = ([], inr y).

(** * Properties *)

(** Unfolding a computation down to its result. *)
Ltac run :=
  unfold bind, ret, raise, get_heap, put_heap, lift_exn; simpl.

Lemma truthy_container h data n :
  container_size h data = Some n →
  negb (truthy h data) = bool_decide (n = 0).
Proof.
  unfold container_size, truthy, deref.
  destruct data as [p|a]; [done|].
  destruct (h !! a) as [[l|d]|]; intros [= <-]; [by destruct l | by destruct d].
Qed.

(** ** Scalar pruning *)




(** ** Whole-container pruning *)

Lemma for_each_nil {A} (body : A → M unit) s : for_each body [] s = (inr tt, s).
Proof. done. Qed.

(** C4: with [store_default] false, [prune_data] of the four container
    fields answers true on an empty container and false on a non-empty
    one, whatever the elements are; with [store_default] true it answers
    false.  The compound variants first let the nested schema prune each
    element: on an empty container there is nothing to visit, on a
    non-empty one the answer is given once that pass has returned, the
    container itself being left as it was. *)
Theorem whole_container_pruning :
  (∀ (self : ListField.t) data s n,
     container_size (heap s) data = Some n →
     ListField.prune_data self data s
     = (inr (bool_decide (n = 0) && negb (ListField._store_default self)), s))
  ∧ (∀ (self : DictField.t) data s n,
     container_size (heap s) data = Some n →
     DictField.prune_data self data s
     = (inr (bool_decide (n = 0) && negb (DictField._store_default self)), s))
  ∧ (∀ (self : CompoundListField.t) a s,
     heap s !! a = Some (OList []) →
     CompoundListField.prune_data self (VRef a) s
     = (inr (negb (CompoundListField._store_default self)), s))
  ∧ (∀ (self : CompoundListField.t) a l s s',
     heap s !! a = Some (OList l) →
     l ≠ [] →
     for_each (CompoundValue.prune_fields_data (CompoundListField.d_value self))
       l s = (inr tt, s') →
     heap s' !! a = Some (OList l) →
     CompoundListField.prune_data self (VRef a) s = (inr false, s'))
  ∧ (∀ (self : CompoundDictField.t) a s,
     heap s !! a = Some (ODict []) →
     CompoundDictField.prune_data self (VRef a) s
     = (inr (negb (CompoundDictField._store_default self)), s))
  ∧ (∀ (self : CompoundDictField.t) a d s s',
     heap s !! a = Some (ODict d) →
     d ≠ [] →
     for_each (CompoundValue.prune_fields_data (CompoundDictField.d_value self))
       d.*2 s = (inr tt, s') →
     heap s' !! a = Some (ODict d) →
     CompoundDictField.prune_data self (VRef a) s = (inr false, s')).
Proof.
  repeat split.
  - intros self data s n Hn. unfold ListField.prune_data. run.
    by rewrite (truthy_container _ _ _ Hn).
  - intros self data s n Hn. unfold DictField.prune_data. run.
    by rewrite (truthy_container _ _ _ Hn).
  - intros self a s Ha. unfold CompoundListField.prune_data. run.
    rewrite Ha. simpl. by rewrite Ha.
  - intros self a l s s' Ha Hl Hpass Ha'.
    unfold CompoundListField.prune_data. run.
    rewrite Ha. simpl. rewrite Hpass, Ha'. by destruct l.
  - intros self a s Ha. unfold CompoundDictField.prune_data, values, as_dict.
    run. rewrite Ha. simpl. by rewrite Ha.
  - intros self a d s s' Ha Hd Hpass Ha'.
    unfold CompoundDictField.prune_data, values, as_dict. run.
    rewrite Ha. simpl. rewrite Hpass, Ha'. by destruct d.
Qed.

Lemma whole_container_pruning_witness :
  CompoundListField.prune_data garage (VRef 0) garage_store
  = (inr false, garage_store_pruned).
Proof.
  apply (proj1 (proj2 (proj2 (proj2 whole_container_pruning)))
           garage 0 [VRef 1; VRef 2] garage_store garage_store_pruned).
  - reflexivity.
  - discriminate.
  - vm_compute. reflexivity.
  - reflexivity.
Defined.

(** ** Idempotence of pruning *)

Lemma bind_inr {A B} (m : M A) (k : A → M B) s (y : B) s' :
  bind m k s = (inr y, s') →
  ∃ x s1, m s = (inr x, s1) ∧ k x s1 = (inr y, s').
Proof.
  unfold bind. destruct (m s) as [[e|x] s1]; [done|]. eauto.
Qed.

Lemma for_each_cons_inv {A} (body : A → M unit) x l s s' :
  for_each body (x :: l) s = (inr tt, s') →
  ∃ s1, body x s = (inr tt, s1) ∧ for_each body l s1 = (inr tt, s').
Proof.
  simpl. intros (u & s1 & Hx & Hl)%bind_inr. destruct u. eauto.
Qed.

Lemma iter_deref h h' data :
  deref h' data = deref h data → iter h' data = iter h data.
Proof. destruct data as [p|a]; simpl; [done|]. by intros ->. Qed.

Lemma values_deref h h' data :
  deref h' data = deref h data → values h' data = values h data.
Proof. unfold values, as_dict. by intros ->. Qed.

Lemma truthy_deref h h' data :
  deref h' data = deref h data → truthy h' data = truthy h data.
Proof. destruct data as [p|a]; simpl; [done|]. by intros ->. Qed.

Section pruning_pass.
Variable P : datum → M unit.
Variable data : datum.
Variable entries : list datum.
Hypothesis contract : pruner_contract P data entries.

Lemma for_each_frame l s s' :
  l ⊆ entries →
  for_each P l s = (inr tt, s') →
  deref (heap s') data = deref (heap s) data.
Proof.
  revert s. induction l as [|x l IH]; intros s Hl.
  - by intros [= <-].
  - intros (s1 & Hx & Hrest)%for_each_cons_inv.
    rewrite (IH s1); [|set_solver|done].
    eapply (pc_frame _ _ _ contract); [|done]. set_solver.
Qed.

Lemma for_each_keeps_settled v l s s' :
  v ∈ entries → l ⊆ entries →
  P v s = (inr tt, s) →
  for_each P l s = (inr tt, s') →
  P v s' = (inr tt, s').
Proof.
  intros Hv. revert s. induction l as [|x l IH]; intros s Hl Hs.
  - by intros [= <-].
  - intros (s1 & Hx & Hrest)%for_each_cons_inv.
    apply (IH s1); [set_solver| |done].
    eapply (pc_stable _ _ _ contract); [done| |done|done]. set_solver.
Qed.

Lemma for_each_settles l s s' :
  l ⊆ entries →
  for_each P l s = (inr tt, s') →
  ∀ v, v ∈ l → P v s' = (inr tt, s').
Proof.
  revert s. induction l as [|x l IH]; intros s Hl Hrun v Hv.
  - by apply elem_of_nil in Hv.
  - apply for_each_cons_inv in Hrun as (s1 & Hx & Hrest).
    apply elem_of_cons in Hv as [->|Hv].
    + apply (for_each_keeps_settled x l s1); [set_solver|set_solver| |done].
      eapply (pc_idem _ _ _ contract); [|done]. set_solver.
    + apply (IH s1); [set_solver|done|done].
Qed.

Lemma for_each_settled l s :
  (∀ v, v ∈ l → P v s = (inr tt, s)) →
  for_each P l s = (inr tt, s).
Proof.
  induction l as [|x l IH]; intros Hl; [done|].
  simpl. unfold bind. rewrite Hl; [|set_solver]. apply IH.
  intros v Hv. apply Hl. set_solver.
Qed.

(** A second pass over the elements, after a first one, changes
    nothing. *)
Lemma for_each_twice s s' :
  for_each P entries s = (inr tt, s') →
  for_each P entries s' = (inr tt, s')
  ∧ deref (heap s') data = deref (heap s) data.
Proof.
  intros Hrun. split.
  - apply for_each_settled. by apply (for_each_settles entries s).
  - by apply (for_each_frame entries).
Qed.
End pruning_pass.


(** The sample schema meets the contract. *)

Lemma state_eta s : State (heap s) (log s) (stdout s) = s.
Proof. by destruct s. Qed.

Lemma record_prune_run k tv data s :
  record_prune_fields_data k tv data s
  = (inr tt, State (record_pruned_heap k tv data (heap s)) (log s) (stdout s)).
Proof.
  unfold record_prune_fields_data, record_pruned_heap, as_dict, deref. run.
  destruct data as [p|a]; [by rewrite state_eta|].
  destruct (heap s !! a) as [[l|d]|]; try by rewrite state_eta.
  destruct (dict_get (KStr k) d) as [v|]; [|by rewrite state_eta].
  destruct (TypedValue.prune_data tv v); [done|by rewrite state_eta].
Qed.

Lemma dict_get_del k d : dict_get k (dict_del k d) = None.
Proof.
  unfold dict_del. induction d as [|[k' v] d IH]; [done|].
  rewrite filter_cons. simpl. case_decide as Hk; simpl; [|done].
  rewrite bool_decide_eq_false_2; done.
Qed.

Lemma record_pruned_heap_idem k tv data h :
  record_pruned_heap k tv data (record_pruned_heap k tv data h)
  = record_pruned_heap k tv data h.
Proof.
  unfold record_pruned_heap. destruct data as [p|a]; [done|].
  destruct (h !! a) as [[l|d]|] eqn:Ha; rewrite ?Ha; try done.
  destruct (dict_get (KStr k) d) as [v|] eqn:Hk; [|by rewrite Ha, Hk].
  destruct (TypedValue.prune_data tv v) eqn:Hp; [|by rewrite Ha, Hk, Hp].
  rewrite list_lookup_insert_eq by (by eapply lookup_lt_Some).
  by rewrite dict_get_del.
Qed.

Lemma record_pruned_heap_other k tv a h b :
  a ≠ b → record_pruned_heap k tv (VRef a) h !! b = h !! b.
Proof.
  intros Hab. unfold record_pruned_heap.
  destruct (h !! a) as [[l|d]|]; try done.
  destruct (dict_get (KStr k) d) as [v|]; [|done].
  destruct (TypedValue.prune_data tv v); [|done].
  by rewrite list_lookup_insert_ne.
Qed.

Lemma record_pruned_heap_stable k tv v w h :
  record_pruned_heap k tv v h = h →
  record_pruned_heap k tv v (record_pruned_heap k tv w h)
  = record_pruned_heap k tv w h.
Proof.
  intros Hv. destruct v as [p|a]; [done|]. destruct w as [q|b]; [done|].
  destruct (decide (a = b)) as [->|Hab].
  { rewrite Hv. exact Hv. }
  unfold record_pruned_heap at 1.
  rewrite record_pruned_heap_other by done.
  revert Hv. unfold record_pruned_heap at 1.
  destruct (h !! a) as [[l|d]|] eqn:Ha; try done.
  destruct (dict_get (KStr k) d) as [x|] eqn:Hk; [|done].
  destruct (TypedValue.prune_data tv x); [|done].
  intros Hh. exfalso.
  assert (<[a:=ODict (dict_del (KStr k) d)]> h !! a = Some (ODict d)) as Hl
    by (by rewrite Hh).
  rewrite list_lookup_insert_eq in Hl by (by eapply lookup_lt_Some).
  injection Hl as Hd. pose proof (dict_get_del (KStr k) d) as Hnone.
  rewrite Hd, Hk in Hnone. done.
Qed.

Lemma record_pruner_contract k tv data entries :
  data ∉ entries →
  pruner_contract (record_prune_fields_data k tv) data entries.
Proof.
  intros Hdata. split.
  - intros v s s' _. rewrite !record_prune_run. intros [= <-]. simpl.
    by rewrite record_pruned_heap_idem.
  - intros v w s s' _ _. rewrite !record_prune_run. intros [= Hv] [= <-]. simpl.
    rewrite record_pruned_heap_stable; [done|].
    by rewrite <- Hv at 2.
  - intros v s s' Hv. rewrite record_prune_run. intros [= <-]. simpl.
    destruct data as [p|a]; [done|]. simpl.
    destruct v as [q|b]; [done|].
    apply record_pruned_heap_other. intros ->. done.
Qed.


(** ** Whole-field assignment to compound lists and dicts *)

Lemma insert_last {A} (l : list A) (x y : A) :
  <[length l := y]> (l ++ [x]) = l ++ [y].
Proof. by rewrite insert_app_r_alt, Nat.sub_diag by lia. Qed.

Lemma lookup_last {A} (l : list A) (x : A) : (l ++ [x]) !! length l = Some x.
Proof. by rewrite lookup_app_r, Nat.sub_diag by lia. Qed.

Lemma setitem_dict r root k v s :
  heap s !! r = Some (ODict root) →
  setitem (VRef r) k v s
  = (inr tt, State (<[r := ODict (dict_set k v root)]> (heap s))
                   (log s) (stdout s)).
Proof. intros Hr. unfold setitem. run. by rewrite Hr. Qed.

Lemma is_child_existing schema i :
  is_child schema i = true ↔ existing_child schema i.
Proof.
  unfold existing_child, is_child, CompoundValue.is_. split.
  - destruct i as [v|dv d|cv d b]; try done.
    intros ?%bool_decide_eq_true. eauto.
  - intros (dv & d & -> & Hid). by apply bool_decide_eq_true.
Qed.

Lemma forallb_existing schema items :
  forallb (is_child schema) items = true ↔ Forall (existing_child schema) items.
Proof.
  rewrite forallb_forall, List.Forall_forall.
  split; intros H i Hi; apply is_child_existing, H, Hi.
Qed.

Lemma is_child_bound schema items :
  forallb (is_child schema) items = true → forallb is_bound items = true.
Proof.
  rewrite !forallb_forall. intros H i Hi. specialize (H i Hi).
  by destruct i.
Qed.

(** The test [not all(bound) or not all(child)] of both [__set__]. *)
Lemma children_test schema items :
  negb (forallb is_bound items) || negb (forallb (is_child schema) items)
  = negb (forallb (is_child schema) items).
Proof.
  destruct (forallb (is_child schema) items) eqn:Hc.
  - by rewrite (is_child_bound _ _ Hc).
  - by rewrite orb_true_r.
Qed.

Lemma CompoundListField_set_run (self : CompoundListField.t) obj value s r root :
  d_data obj = VRef r →
  heap s !! r = Some (ODict root) →
  CompoundListField.__set__ self obj value s
  = match py_list (heap s) value with
    | None => (inl err_set_list_expected, s)
    | Some items =>
        if forallb (is_child (CompoundListField.d_value self)) items
        then (inr tt, store_new s r root (CompoundListField.d_key self)
                        (OList (slice <$> items)))
        else (inl err_set_list_children, s)
    end.
Proof.
  intros Hobj Hr. unfold CompoundListField.__set__. run.
  destruct (py_list (heap s) value) as [items|]; [|done].
  rewrite children_test.
  destruct (forallb _ items); simpl; [|done].
  unfold alloc. rewrite Hobj. simpl. rewrite setitem_dict with (root := root).
  - done.
  - simpl. rewrite lookup_app_l; [done|]. by eapply lookup_lt_Some.
Qed.

(** C3: whole-field assignment to a [CompoundListField] of an entity whose
    root document is a dict.  It succeeds exactly when the value is a list
    whose every element is a bound view over the very schema object of the
    field.  It then makes a new list of the elements' own slices (the same
    references, not copies, and not validated again) and stores it under
    the field's key, leaving every other object alone.  A value that is
    not a list, or a list with another kind of element, raises and changes
    nothing. *)
Theorem CompoundListField_set_spec (self : CompoundListField.t) (obj : entity)
  (value : pyval) (s : state) (r : addr) (root : list (key * datum)) :
  d_data obj = VRef r →
  heap s !! r = Some (ODict root) →
  ((∃ s', CompoundListField.__set__ self obj value s = (inr tt, s'))
   ↔ ∃ items, py_list (heap s) value = Some items
              ∧ Forall (existing_child (CompoundListField.d_value self)) items)
  ∧ (∀ items,
       py_list (heap s) value = Some items →
       Forall (existing_child (CompoundListField.d_value self)) items →
       let s' := store_new s r root (CompoundListField.d_key self)
                   (OList (slice <$> items)) in
       CompoundListField.__set__ self obj value s = (inr tt, s')
       ∧ as_dict (heap s') (d_data obj)
         = Some (dict_set (KStr (CompoundListField.d_key self))
                   (VRef (length (heap s))) root)
       ∧ heap s' !! length (heap s) = Some (OList (slice <$> items))
       ∧ ∀ a, a ≠ r → a < length (heap s) → heap s' !! a = heap s !! a)
  ∧ (py_list (heap s) value = None →
     CompoundListField.__set__ self obj value s = (inl err_set_list_expected, s))
  ∧ (∀ items,
       py_list (heap s) value = Some items →
       ¬ Forall (existing_child (CompoundListField.d_value self)) items →
       CompoundListField.__set__ self obj value s
       = (inl err_set_list_children, s)).
Proof.
  intros Hobj Hr.
  pose proof (CompoundListField_set_run self obj value s r root Hobj Hr) as Hrun.
  assert (r < length (heap s)) as Hlt by (by eapply lookup_lt_Some).
  split; [|split; [|split]].
  - split.
    + intros [s' Hs']. rewrite Hs' in Hrun.
      destruct (py_list (heap s) value) as [items|]; [|done].
      exists items. split; [done|]. apply forallb_existing.
      by destruct (forallb _ items).
    + intros (items & Hitems & Hall). rewrite Hrun, Hitems.
      apply forallb_existing in Hall. rewrite Hall. eauto.
  - intros items Hitems Hall s'. split_and!.
    + rewrite Hrun, Hitems. apply forallb_existing in Hall. by rewrite Hall.
    + rewrite Hobj. unfold as_dict, s', store_new. simpl.
      rewrite list_lookup_insert_eq; [done|]. rewrite length_app. lia.
    + unfold s', store_new. simpl. rewrite list_lookup_insert_ne by lia.
      apply lookup_last.
    + intros a Ha Hlen. unfold s', store_new. simpl.
      rewrite list_lookup_insert_ne by done. by rewrite lookup_app_l.
  - intros Hnone. by rewrite Hrun, Hnone.
  - intros items Hitems Hnot. rewrite Hrun, Hitems.
    destruct (forallb _ items) eqn:Hc; [|done].
    by apply forallb_existing in Hc.
Qed.

Lemma CompoundListField_set_spec_witness :
  CompoundListField.__set__ garage fleet (PyList [PyBound car (VRef 2)])
    fleet_store
  = (inr tt, store_new fleet_store 0
               [(KStr "cars", VRef 1); (KStr "trucks", VRef 3)] "cars"
               (OList [VRef 2]))
  ∧ CompoundListField.__set__ garage fleet (PyList [PyBound truck (VRef 4)])
      fleet_store
    = (inl err_set_list_children, fleet_store).
Proof.
  split.
  - apply (proj1 (proj2 (CompoundListField_set_spec garage fleet
             (PyList [PyBound car (VRef 2)]) fleet_store 0 _ eq_refl eq_refl))
             [PyBound car (VRef 2)] eq_refl).
    repeat constructor. by exists car, (VRef 2).
  - apply (proj2 (proj2 (proj2 (CompoundListField_set_spec garage fleet
             (PyList [PyBound truck (VRef 4)]) fleet_store 0 _ eq_refl eq_refl)))
             [PyBound truck (VRef 4)] eq_refl).
    intros Hall. apply Forall_cons_1 in Hall as [(dv & d & [= <- _] & Hid) _].
    discriminate Hid.
Defined.

Lemma entries_test keytype schema (items : list (key * pyobj)) :
  negb (forallb (λ i, isinstance i keytype) items.*1)
  || negb (forallb is_bound items.*2)
  || negb (forallb (is_child schema) items.*2)
  = negb (forallb (λ kv, isinstance kv.1 keytype && is_child schema kv.2) items).
Proof.
  rewrite <- orb_assoc, children_test, <- negb_andb. f_equal.
  induction items as [|[k v] items IH]; [done|].
  simpl. rewrite <- IH.
  destruct (isinstance k keytype), (is_child schema v); simpl; try done.
  by rewrite andb_false_r.
Qed.

Lemma forallb_existing_entry keytype schema (items : list (key * pyobj)) :
  forallb (λ kv, isinstance kv.1 keytype && is_child schema kv.2) items = true
  ↔ Forall (existing_entry keytype schema) items.
Proof.
  rewrite forallb_forall, List.Forall_forall. unfold existing_entry.
  split; intros H kv Hkv; specialize (H kv Hkv).
  - apply andb_true_iff in H as [? ?]. by rewrite <- is_child_existing.
  - apply andb_true_iff. by rewrite is_child_existing.
Qed.

Lemma CompoundDictField_set_run (self : CompoundDictField.t) obj value s r root :
  d_data obj = VRef r →
  heap s !! r = Some (ODict root) →
  CompoundDictField.__set__ self obj value s
  = match py_dict (heap s) value with
    | None => (inl err_set_dict_expected, s)
    | Some items =>
        if forallb (λ kv, isinstance kv.1 (CompoundDictField.d_keytype self)
                          && is_child (CompoundDictField.d_value self) kv.2)
             items
        then (inr tt, store_new (printed s) r root (CompoundDictField.d_key self)
                        (ODict (dict_of (prod_map id slice <$> items))))
        else (inl err_set_dict_children, printed s)
    end.
Proof.
  intros Hobj Hr. unfold CompoundDictField.__set__. run.
  destruct (py_dict (heap s) value) as [items|]; [|done].
  simpl. rewrite entries_test.
  destruct (forallb _ items); simpl; [|done].
  unfold alloc. rewrite Hobj. simpl. rewrite setitem_dict with (root := root).
  - done.
  - simpl. rewrite lookup_app_l; [done|]. by eapply lookup_lt_Some.
Qed.

(** The claim as first stated fails: a value that is not a mapping is
    refused with a type mismatch, not a value mismatch. *)
Lemma CompoundDictField_set_non_mapping :
  py_dict (heap fleet_store) (PyObj (PyData (VPrim (PInt 5)))) = None
  ∧ ∃ e s',
      CompoundDictField.__set__ named_cars fleet
        (PyObj (PyData (VPrim (PInt 5)))) fleet_store = (inl e, s')
      ∧ is_value_mismatch e = false
      ∧ is_type_mismatch e = true.
Proof. split; [done|]. by exists err_set_dict_expected, fleet_store. Qed.

(** C7 (as amended): whole-field assignment to a [CompoundDictField] of
    an entity whose root document is a dict.  It succeeds exactly when the
    value is a mapping whose every key is an instance of the declared key
    type and whose every value is a bound view over the very schema object
    of the field; the field's slice then becomes a new mapping from each
    key to that child's own slice, the same reference.  A value that is
    not a mapping raises a type mismatch; a mapping with another kind of
    key or value raises a value mismatch; neither touches a document. *)
Theorem CompoundDictField_set_spec (self : CompoundDictField.t) (obj : entity)
  (value : pyval) (s : state) (r : addr) (root : list (key * datum)) :
  d_data obj = VRef r →
  heap s !! r = Some (ODict root) →
  let accepted :=
    existing_entry (CompoundDictField.d_keytype self)
      (CompoundDictField.d_value self) in
  ((∃ s', CompoundDictField.__set__ self obj value s = (inr tt, s'))
   ↔ ∃ items, py_dict (heap s) value = Some items ∧ Forall accepted items)
  ∧ (∀ items,
       py_dict (heap s) value = Some items →
       Forall accepted items →
       let o := ODict (dict_of (prod_map id slice <$> items)) in
       let s' := store_new (printed s) r root (CompoundDictField.d_key self) o in
       CompoundDictField.__set__ self obj value s = (inr tt, s')
       ∧ as_dict (heap s') (d_data obj)
         = Some (dict_set (KStr (CompoundDictField.d_key self))
                   (VRef (length (heap s))) root)
       ∧ heap s' !! length (heap s) = Some o
       ∧ ∀ a, a ≠ r → a < length (heap s) → heap s' !! a = heap s !! a)
  ∧ (py_dict (heap s) value = None →
     ∃ e, CompoundDictField.__set__ self obj value s = (inl e, s)
          ∧ is_type_mismatch e = true)
  ∧ (∀ items,
       py_dict (heap s) value = Some items →
       ¬ Forall accepted items →
       ∃ e s', CompoundDictField.__set__ self obj value s = (inl e, s')
               ∧ is_value_mismatch e = true
               ∧ heap s' = heap s).
Proof.
  intros Hobj Hr accepted.
  pose proof (CompoundDictField_set_run self obj value s r root Hobj Hr) as Hrun.
  assert (r < length (heap s)) as Hlt by (by eapply lookup_lt_Some).
  split; [|split; [|split]].
  - split.
    + intros [s' Hs']. rewrite Hs' in Hrun.
      destruct (py_dict (heap s) value) as [items|]; [|done].
      exists items. split; [done|]. apply forallb_existing_entry.
      by destruct (forallb _ items).
    + intros (items & Hitems & Hall). rewrite Hrun, Hitems.
      apply forallb_existing_entry in Hall. rewrite Hall. eauto.
  - intros items Hitems Hall o s'. repeat split.
    + rewrite Hrun, Hitems. apply forallb_existing_entry in Hall.
      by rewrite Hall.
    + rewrite Hobj. unfold as_dict, s', store_new. simpl.
      rewrite list_lookup_insert_eq; [done|]. rewrite length_app. lia.
    + unfold s', store_new. simpl. rewrite list_lookup_insert_ne by lia.
      by rewrite lookup_app_r, Nat.sub_diag by lia.
    + intros a Ha Hlen. unfold s', store_new. simpl.
      rewrite list_lookup_insert_ne by done. by rewrite lookup_app_l.
  - intros Hnone. exists err_set_dict_expected. by rewrite Hrun, Hnone.
  - intros items Hitems Hnot. exists err_set_dict_children, (printed s).
    rewrite Hrun, Hitems.
    destruct (forallb _ items) eqn:Hc; [|done].
    by apply forallb_existing_entry in Hc.
Qed.

Lemma CompoundDictField_set_spec_witness :
  CompoundDictField.__set__ named_cars fleet
    (PyDict [(KStr "mine", PyBound car (VRef 2))]) fleet_store
  = (inr tt, store_new (printed fleet_store) 0
               [(KStr "cars", VRef 1); (KStr "trucks", VRef 3)] "named"
               (ODict [(KStr "mine", VRef 2)])).
Proof.
  apply (proj1 (proj2 (CompoundDictField_set_spec named_cars fleet
           (PyDict [(KStr "mine", PyBound car (VRef 2))]) fleet_store 0 _
           eq_refl eq_refl))
           [(KStr "mine", PyBound car (VRef 2))] eq_refl).
  repeat constructor. by exists car, (VRef 2).
Defined.

(** With distinct keys, as the items of a dict have, the comprehension
    keeps every pair, in order. *)
Lemma dict_set_fresh k v d : k ∉ d.*1 → dict_set k v d = d ++ [(k, v)].
Proof.
  induction d as [|[k' v'] d IH]; [done|]. simpl.
  intros [Hne Hk]%not_elem_of_cons.
  rewrite bool_decide_eq_false_2 by done. by rewrite IH.
Qed.

Lemma foldl_dict_set (acc items : list (key * datum)) :
  NoDup (acc.*1 ++ items.*1) →
  foldl (λ d kv, dict_set kv.1 kv.2 d) acc items = acc ++ items.
Proof.
  revert acc. induction items as [|[k v] items IH]; intros acc Hnd.
  - by rewrite app_nil_r.
  - simpl in *. rewrite dict_set_fresh.
    + rewrite IH; [by rewrite <- app_assoc|].
      rewrite fmap_app. simpl. by rewrite <- app_assoc.
    + apply NoDup_app in Hnd as (_ & Hd & _).
      intros Hin. apply (Hd k Hin), list_elem_of_here.
Qed.

Lemma dict_of_distinct items : NoDup items.*1 → dict_of items = items.
Proof. intros Hnd. by apply (foldl_dict_set [] items). Qed.

(** C9: assigning the empty list to a [CompoundListField], or the empty
    mapping to a [CompoundDictField], succeeds for every entity whose root
    document is a dict, whatever the schema and the key type: the field's
    slice becomes a new empty container. *)
Theorem empty_assignment (obj : entity) (s : state) (r : addr)
  (root : list (key * datum)) :
  d_data obj = VRef r →
  heap s !! r = Some (ODict root) →
  (∀ (self : CompoundListField.t) value,
     py_list (heap s) value = Some [] →
     CompoundListField.__set__ self obj value s
     = (inr tt, store_new s r root (CompoundListField.d_key self) (OList [])))
  ∧ (∀ (self : CompoundDictField.t) value,
     py_dict (heap s) value = Some [] →
     CompoundDictField.__set__ self obj value s
     = (inr tt, store_new (printed s) r root (CompoundDictField.d_key self)
                  (ODict []))).
Proof.
  intros Hobj Hr. split; intros self value Hvalue.
  - by rewrite (CompoundListField_set_run self obj value s r root Hobj Hr),
      Hvalue.
  - by rewrite (CompoundDictField_set_run self obj value s r root Hobj Hr),
      Hvalue.
Qed.

Lemma empty_assignment_witness :
  CompoundListField.__set__ garage fleet (PyList []) fleet_store
  = (inr tt, store_new fleet_store 0
               [(KStr "cars", VRef 1); (KStr "trucks", VRef 3)] "cars"
               (OList []))
  ∧ CompoundDictField.__set__ named_cars fleet (PyDict []) fleet_store
    = (inr tt, store_new (printed fleet_store) 0
                 [(KStr "cars", VRef 1); (KStr "trucks", VRef 3)] "named"
                 (ODict [])).
Proof.
  split.
  - by apply (proj1 (empty_assignment fleet fleet_store 0 _ eq_refl eq_refl)).
  - by apply (proj2 (empty_assignment fleet fleet_store 0 _ eq_refl eq_refl)).
Defined.

(** ** Filtering the input of a list field *)

Lemma set_state_same h s :
  h = heap s → State h (log s ++ []) (stdout s) = s.
Proof. intros ->. rewrite app_nil_r. apply state_eta. Qed.

Lemma filter_entries_accepted tv error a seen rest s :
  heap s !! a = Some (OList (seen ++ rest)) →
  Forall (λ x, accepts tv error x = true) rest →
  filter_entries (λ entry, TypedValue.call_filter_input tv entry error)
    a (length seen) rest s
  = (inr tt, State (<[a := OList (seen ++ (filtered tv error <$> rest))]> (heap s))
                   (log s ++ reports tv error rest) (stdout s)).
Proof.
  revert seen s. induction rest as [|x rest IH]; intros seen s Ha Hall.
  - simpl. f_equal. symmetry. apply set_state_same.
    by apply list_insert_id.
  - apply Forall_cons_1 in Hall as [Hx Hall].
    simpl. unfold bind at 1, TypedValue.call_filter_input at 1.
    unfold accepts in Hx. unfold filtered at 1, reports. simpl.
    destruct (TypedValue.filter_input tv x error) as [ds [e|v]]; [done|].
    simpl. unfold bind at 1, list_setitem, bind at 1, get_heap. simpl.
    rewrite Ha. unfold put_heap. simpl.
    replace (<[length seen := v]> (seen ++ x :: rest))
      with ((seen ++ [v]) ++ rest).
    2:{ rewrite insert_app_r_alt, Nat.sub_diag by lia.
        by rewrite <- app_assoc. }
    replace (S (length seen)) with (length (seen ++ [v]))
      by (rewrite length_app; simpl; lia).
    rewrite IH; simpl.
    + rewrite list_insert_insert_eq, <- !app_assoc. done.
    + apply list_lookup_insert_eq. by eapply lookup_lt_Some.
    + done.
Qed.

Lemma filter_entries_rejected tv error a seen pre x post e s :
  heap s !! a = Some (OList (seen ++ pre ++ x :: post)) →
  Forall (λ x, accepts tv error x = true) pre →
  (TypedValue.filter_input tv x error).2 = inl e →
  filter_entries (λ entry, TypedValue.call_filter_input tv entry error)
    a (length seen) (pre ++ x :: post) s
  = (inl e,
     State (<[a := OList (seen ++ (filtered tv error <$> pre) ++ x :: post)]>
              (heap s))
           (log s ++ reports tv error (pre ++ [x])) (stdout s)).
Proof.
  revert seen s. induction pre as [|y pre IH]; intros seen s Ha Hall Hx.
  - simpl. unfold bind at 1, TypedValue.call_filter_input at 1.
    unfold reports. simpl. rewrite Hx, app_nil_r.
    by rewrite list_insert_id.
  - apply Forall_cons_1 in Hall as [Hy Hall].
    simpl. unfold bind at 1, TypedValue.call_filter_input at 1.
    unfold accepts in Hy. unfold filtered at 1, reports. simpl.
    destruct (TypedValue.filter_input tv y error) as [ds [e'|v]]; [done|].
    simpl. unfold bind at 1, list_setitem, bind at 1, get_heap. simpl.
    rewrite Ha. unfold put_heap. simpl.
    replace (<[length seen := v]> (seen ++ y :: pre ++ x :: post))
      with ((seen ++ [v]) ++ pre ++ x :: post).
    2:{ rewrite insert_app_r_alt, Nat.sub_diag by lia.
        by rewrite <- app_assoc. }
    replace (S (length seen)) with (length (seen ++ [v]))
      by (rewrite length_app; simpl; lia).
    rewrite IH; simpl.
    + rewrite list_insert_insert_eq, <- !app_assoc. done.
    + apply list_lookup_insert_eq. by eapply lookup_lt_Some.
    + done.
    + done.
Qed.

Lemma expect_list_list a l error s :
  heap s !! a = Some (OList l) → expect_list (VRef a) error s = (inr a, s).
Proof. intros Ha. unfold expect_list, as_list. run. by rewrite Ha. Qed.

Lemma expect_list_other data error s :
  as_list (heap s) data = None →
  expect_list data error s
  = if error then (inl err_list_expected, s)
    else (inr (length (heap s)),
          State (heap s ++ [OList []])
                (log s ++ [LogError msg_non_list data]) (stdout s)).
Proof.
  intros Hnone. unfold expect_list. run.
  destruct data as [p|a]; [by destruct error|].
  rewrite Hnone. by destruct error.
Qed.

(** C6: [ListField.filter_input].  Input that is not a list raises a type
    mismatch when [error] is set; otherwise it is reported and a new empty
    list is returned.  For a list, the entries go through the validator
    from left to right and each result replaces its entry in the list
    itself, which is returned: when the validator accepts them all, the
    list holds the result for each entry at the place of that entry, so
    length and order are kept; when it raises on an entry, that failure
    is the outcome, the entries before it having been replaced. *)
Theorem ListField_filter_input_spec (self : ListField.t) (data : datum)
  (error : bool) (s : state) :
  let tv := ListField.d_value self in
  (as_list (heap s) data = None →
   ListField.filter_input self data error s
   = if error then (inl err_list_expected, s)
     else (inr (VRef (length (heap s))),
           State (heap s ++ [OList []])
                 (log s ++ [LogError msg_non_list data]) (stdout s)))
  ∧ is_type_mismatch err_list_expected = true
  ∧ (∀ a l,
       data = VRef a →
       heap s !! a = Some (OList l) →
       (Forall (λ x, accepts tv error x = true) l →
        ListField.filter_input self data error s
        = (inr (VRef a),
           State (<[a := OList (filtered tv error <$> l)]> (heap s))
                 (log s ++ reports tv error l) (stdout s))
        ∧ length (filtered tv error <$> l) = length l
        ∧ ∀ i x, l !! i = Some x →
                 (filtered tv error <$> l) !! i = Some (filtered tv error x)
                 ∧ (TypedValue.filter_input tv x error).2
                   = inr (filtered tv error x))
       ∧ (∀ pre x post e,
            l = pre ++ x :: post →
            Forall (λ x, accepts tv error x = true) pre →
            (TypedValue.filter_input tv x error).2 = inl e →
            ListField.filter_input self data error s
            = (inl e,
               State (<[a := OList ((filtered tv error <$> pre) ++ x :: post)]>
                        (heap s))
                     (log s ++ reports tv error (pre ++ [x])) (stdout s)))).
Proof.
  intros tv. split; [|split; [done|]].
  - intros Hnone. unfold ListField.filter_input, bind at 1.
    rewrite (expect_list_other _ _ _ Hnone).
    destruct error; [done|]. run. unfold as_list. simpl.
    by rewrite lookup_app_r, Nat.sub_diag by lia.
  - intros a l -> Ha.
    assert (ListField.filter_input self (VRef a) error s
            = bind (filter_entries
                      (λ entry, TypedValue.call_filter_input tv entry error)
                      a 0 l) (λ _, ret (VRef a)) s) as Hrun.
    { unfold ListField.filter_input, bind at 1.
      rewrite (expect_list_list _ _ _ _ Ha).
      unfold bind at 1, get_heap, as_list. simpl. by rewrite Ha. }
    split.
    + intros Hall. split; [|split].
      * rewrite Hrun. unfold bind.
        pose proof (filter_entries_accepted tv error a [] l s Ha Hall) as Hloop.
        simpl in Hloop. by rewrite Hloop.
      * by rewrite length_fmap.
      * intros i x Hx. split; [by rewrite list_lookup_fmap, Hx|].
        rewrite Forall_lookup in Hall. specialize (Hall i x Hx).
        unfold accepts, filtered in *.
        by destruct (TypedValue.filter_input tv x error).2.
    + intros pre x post e -> Hpre Hx. rewrite Hrun. unfold bind.
      pose proof (filter_entries_rejected tv error a [] pre x post e s
                    Ha Hpre Hx) as Hloop.
      simpl in Hloop. by rewrite Hloop.
Qed.

Lemma ListField_filter_input_spec_witness :
  ListField.filter_input wheels (VRef 0) false wheels_store
  = (inr (VRef 0),
     State [OList [VPrim (PInt 4); VPrim (PInt 0); VPrim (PInt 6)]]
           [LogError "Ignoring incompatible data for %s" (VPrim (PStr "x"))] [])
  ∧ ListField.filter_input wheels (VRef 0) true wheels_store
    = (inl (TypeError "unexpected value type"), wheels_store)
  ∧ ListField.filter_input wheels (VPrim PNone) true wheels_store
    = (inl err_list_expected, wheels_store).
Proof.
  split; [|split].
  - apply (proj1 (proj2 (proj2 (ListField_filter_input_spec wheels (VRef 0)
             false wheels_store)) 0 _ eq_refl eq_refl)).
    repeat constructor.
  - apply (proj2 (proj2 (proj2 (ListField_filter_input_spec wheels (VRef 0)
             true wheels_store)) 0 _ eq_refl eq_refl)
             [VPrim (PInt 4)] (VPrim (PStr "x")) [VPrim (PInt 6)]
             (TypeError "unexpected value type") eq_refl).
    + repeat constructor.
    + reflexivity.
  - by apply (proj1 (ListField_filter_input_spec wheels (VPrim PNone) true
                wheels_store)).
Defined.

(** ** Filtering the input of a dict field *)

Section dict_loop.
Variable keytype : pytype.
Variable tv : TypedValue.t.
Variable error : bool.
Variable shown : datum.
Variable data_out : addr.

Let f := λ val, TypedValue.call_filter_input tv val error.
Let step := λ (d : list (key * datum)) (kv : key * datum),
              dict_set kv.1 kv.2 d.

Lemma filter_items_no_failure acc items s :
  heap s !! data_out = Some (ODict acc) →
  Forall (λ kv, entry_failure keytype tv error kv = None) items →
  filter_items keytype f error shown data_out items s
  = (inr tt,
     State (<[data_out := ODict (foldl step acc (kept keytype tv error items))]>
              (heap s))
           (log s ++ concat (entry_reports keytype tv error shown <$> items))
           (stdout s)).
Proof.
  revert acc s. induction items as [|[k v] items IH]; intros acc s Hout Hall.
  - simpl. f_equal. symmetry. apply set_state_same. by apply list_insert_id.
  - apply Forall_cons_1 in Hall as [Hkv Hall].
    unfold entry_failure in Hkv. unfold kept, entry_reports in *.
    rewrite filter_cons. simpl in *.
    destruct (isinstance k keytype) eqn:Hk; simpl.
    + unfold bind at 1, f at 1, TypedValue.call_filter_input, filtered at 1.
      destruct (TypedValue.filter_input tv v error) as [ds [e|v']]; [done|].
      simpl. unfold bind at 1.
      rewrite (setitem_dict data_out acc) by done.
      rewrite (IH (dict_set k v' acc)); simpl.
      * by rewrite list_insert_insert_eq, <- app_assoc.
      * apply list_lookup_insert_eq. by eapply lookup_lt_Some.
      * done.
    + destruct error; [done|].
      unfold bind at 1, logging_error. simpl.
      rewrite (IH acc); simpl; [|done|done]. by rewrite <- app_assoc.
Qed.

Lemma filter_items_first_failure acc pre kv post e s :
  heap s !! data_out = Some (ODict acc) →
  Forall (λ kv, entry_failure keytype tv error kv = None) pre →
  entry_failure keytype tv error kv = Some e →
  filter_items keytype f error shown data_out (pre ++ kv :: post) s
  = (inl e,
     State (<[data_out := ODict (foldl step acc (kept keytype tv error pre))]>
              (heap s))
           (log s ++ concat (entry_reports keytype tv error shown
                               <$> (pre ++ [kv])))
           (stdout s)).
Proof.
  revert acc s. induction pre as [|[k v] pre IH]; intros acc s Hout Hall Hkv.
  - destruct kv as [k v]. unfold entry_failure, entry_reports in *.
    simpl in *. rewrite list_insert_id by done.
    destruct (isinstance k keytype) eqn:Hk; simpl.
    + unfold bind at 1, f at 1, TypedValue.call_filter_input.
      destruct (TypedValue.filter_input tv v error) as [ds [e'|v']];
        simplify_eq/=. by rewrite app_nil_r.
    + destruct error; simplify_eq/=. unfold raise.
      by rewrite app_nil_r, state_eta.
  - apply Forall_cons_1 in Hall as [Hp Hall].
    unfold entry_failure in Hp. unfold kept, entry_reports in *.
    rewrite filter_cons. simpl in *.
    destruct (isinstance k keytype) eqn:Hk; simpl.
    + unfold bind at 1, f at 1, TypedValue.call_filter_input, filtered at 1.
      destruct (TypedValue.filter_input tv v error) as [ds [e'|v']]; [done|].
      simpl. unfold bind at 1.
      rewrite (setitem_dict data_out acc) by done.
      rewrite (IH (dict_set k v' acc)); simpl.
      * by rewrite list_insert_insert_eq, <- app_assoc.
      * apply list_lookup_insert_eq. by eapply lookup_lt_Some.
      * done.
      * done.
    + destruct error; [done|].
      unfold bind at 1, logging_error. simpl.
      rewrite (IH acc); simpl; [|done|done|done]. by rewrite <- app_assoc.
Qed.
End dict_loop.

Lemma expect_dict_dict a d error s :
  heap s !! a = Some (ODict d) → expect_dict (VRef a) error s = (inr a, s).
Proof. intros Ha. unfold expect_dict, as_dict. run. by rewrite Ha. Qed.

Lemma expect_dict_other data error s :
  as_dict (heap s) data = None →
  expect_dict data error s
  = if error then (inl err_dict_expected, s)
    else (inr (length (heap s)),
          State (heap s ++ [ODict []])
                (log s ++ [LogError msg_non_dict data]) (stdout s)).
Proof.
  intros Hnone. unfold expect_dict. run.
  destruct data as [p|a]; [by destruct error|].
  rewrite Hnone. by destruct error.
Qed.

Lemma DictField_filter_input_run (self : DictField.t) a items error s :
  heap s !! a = Some (ODict items) →
  DictField.filter_input self (VRef a) error s
  = bind (filter_items (DictField._keytype self)
            (λ val, TypedValue.call_filter_input (DictField.d_value self)
                      val error)
            error (VRef a) (length (heap s)) items)
         (λ _, ret (VRef (length (heap s))))
         (State (heap s ++ [ODict []]) (log s) (stdout s)).
Proof.
  intros Ha. unfold DictField.filter_input, bind at 1.
  rewrite (expect_dict_dict _ _ _ _ Ha).
  unfold bind at 1, alloc. unfold bind at 1, get_heap, as_dict. simpl.
  rewrite lookup_app_l by (by eapply lookup_lt_Some). by rewrite Ha.
Qed.

Lemma first_failure {A} (fails : A → option exn) (items : list A) :
  Exists (λ x, fails x ≠ None) items →
  ∃ pre x post e,
    items = pre ++ x :: post
    ∧ Forall (λ x, fails x = None) pre
    ∧ fails x = Some e.
Proof.
  induction items as [|y items IH]; intros Hex; [by apply Exists_nil in Hex|].
  destruct (fails y) as [e|] eqn:Hy.
  - by exists [], y, items, e.
  - apply Exists_cons in Hex as [Hex|Hex]; [done|].
    destruct (IH Hex) as (pre & x & post & e & -> & Hpre & Hx).
    exists (y :: pre), x, post, e. split; [done|]. split; [|done].
    by constructor.
Qed.

Lemma kept_keys keytype tv error items k :
  k ∈ (kept keytype tv error items).*1 → k ∈ items.*1.
Proof.
  unfold kept. induction items as [|[k' v] items IH]; [done|].
  rewrite filter_cons. simpl. case_decide; simpl.
  - intros [->|Hk]%elem_of_cons; [left|right; auto].
  - right. auto.
Qed.

Lemma kept_distinct keytype tv error items :
  NoDup items.*1 → NoDup (kept keytype tv error items).*1.
Proof.
  induction items as [|[k v] items IH]; [done|].
  simpl. intros [Hk Hnd]%NoDup_cons. unfold kept in *.
  rewrite filter_cons. simpl. case_decide; simpl; [|auto].
  apply NoDup_cons. split; [|auto].
  intros Hin. by apply kept_keys in Hin.
Qed.

(** C5: the per-entry key policy of [DictField.filter_input] on a mapping.
    With [error] false an entry whose key is not an instance of the
    declared key type is left out and reported, the loop goes on, and the
    result is a new mapping holding every validly-keyed entry, its value
    being what the validator returned for it.  With [error] true such an
    entry raises a type mismatch as soon as the loop reaches it; whatever
    the run raises, no object that existed before is changed. *)
Theorem DictField_filter_input_spec (self : DictField.t) (a : addr)
  (items : list (key * datum)) (s : state) :
  heap s !! a = Some (ODict items) →
  let keytype := DictField._keytype self in
  let tv := DictField.d_value self in
  (Forall (λ kv, isinstance kv.1 keytype = true → accepts tv false kv.2 = true)
     items →
   DictField.filter_input self (VRef a) false s
   = (inr (VRef (length (heap s))),
      State (heap s ++ [ODict (dict_of (kept keytype tv false items))])
            (log s ++ concat (entry_reports keytype tv false (VRef a) <$> items))
            (stdout s))
   ∧ (NoDup items.*1 →
      dict_of (kept keytype tv false items) = kept keytype tv false items)
   ∧ (∀ kv, kv ∈ items → isinstance kv.1 keytype = false →
        (kv.1 ∉ (kept keytype tv false items).*1)
        ∧ entry_reports keytype tv false (VRef a) kv
          = [LogError msg_invalid_key (VRef a)]))
  ∧ (∀ pre kv post,
       items = pre ++ kv :: post →
       Forall (λ kv, entry_failure keytype tv true kv = None) pre →
       isinstance kv.1 keytype = false →
       DictField.filter_input self (VRef a) true s
       = (inl err_invalid_key,
          State (heap s ++ [ODict (dict_of (kept keytype tv true pre))])
                (log s ++ concat (entry_reports keytype tv true (VRef a) <$> pre))
                (stdout s)))
  ∧ (Exists (λ kv, isinstance kv.1 keytype = false) items →
     ∃ e s',
       DictField.filter_input self (VRef a) true s = (inl e, s')
       ∧ (e = err_invalid_key
          ∨ ∃ kv, kv ∈ items ∧ (TypedValue.filter_input tv kv.2 true).2 = inl e)
       ∧ ∀ b, b < length (heap s) → heap s' !! b = heap s !! b)
  ∧ is_type_mismatch err_invalid_key = true.
Proof.
  intros Ha keytype tv.
  pose proof (λ error, DictField_filter_input_run self a items error s Ha)
    as Hrun.
  split; [|split; [|split; [|done]]].
  - intros Hall. split; [|split].
    + rewrite Hrun. unfold bind.
      rewrite (filter_items_no_failure keytype tv false (VRef a) _ []); simpl.
      * by rewrite insert_last.
      * apply lookup_last.
      * eapply Forall_impl; [exact Hall|]. intros [k v]. simpl.
        unfold entry_failure, accepts. simpl.
        destruct (isinstance k keytype); [|done].
        intros H. specialize (H eq_refl).
        by destruct (TypedValue.filter_input tv v false).2.
    + intros Hnd. by apply dict_of_distinct, kept_distinct.
    + intros [k v] Hin Hk. simpl in *. split.
      * intros (kv' & -> & Hkv')%list_elem_of_fmap. unfold kept in Hkv'.
        apply list_elem_of_fmap in Hkv' as (kv & -> & Hkv).
        apply list_elem_of_filter in Hkv as [Hkv _]. simpl in Hk.
        by rewrite Hk in Hkv.
      * unfold entry_reports. simpl. by rewrite Hk.
  - intros pre kv post -> Hpre Hkv. rewrite Hrun. unfold bind.
    rewrite (filter_items_first_failure keytype tv true (VRef a) _ []
               pre kv post err_invalid_key); simpl.
    + rewrite insert_last, fmap_app, concat_app. simpl.
      unfold entry_reports at 2. rewrite Hkv. simpl.
      by rewrite !app_nil_r.
    + apply lookup_last.
    + done.
    + unfold entry_failure. by rewrite Hkv.
  - intros Hex.
    destruct (first_failure (entry_failure keytype tv true) items)
      as (pre & kv & post & e & -> & Hpre & Hkv).
    { eapply Exists_impl; [exact Hex|]. intros kv Hk. simpl in Hk.
      unfold entry_failure. by rewrite Hk. }
    eexists e, _. split; [|split].
    + rewrite Hrun. unfold bind.
      rewrite (filter_items_first_failure keytype tv true (VRef a) _ []
                 pre kv post e); simpl; [done|apply lookup_last|done|done].
    + unfold entry_failure in Hkv.
      destruct (isinstance kv.1 keytype).
      * right. exists kv. split.
        { apply elem_of_app. right. left. }
        by destruct (TypedValue.filter_input tv kv.2 true).2; simplify_eq.
      * left. by simplify_eq.
    + intros b Hb. simpl. rewrite insert_last. by rewrite !lookup_app_l.
Qed.

Lemma DictField_filter_input_spec_witness :
  DictField.filter_input scores (VRef 0) false scores_store
  = (inr (VRef 1),
     State [ODict [(KInt 5, VPrim (PInt 1)); (KStr "ann", VPrim (PInt 2))];
            ODict [(KStr "ann", VPrim (PInt 2))]]
           [LogError msg_invalid_key (VRef 0)] [])
  ∧ DictField.filter_input scores (VRef 0) true scores_store
    = (inl err_invalid_key,
       State [ODict [(KInt 5, VPrim (PInt 1)); (KStr "ann", VPrim (PInt 2))];
              ODict []] [] []).
Proof.
  split.
  - apply (proj1 (DictField_filter_input_spec scores 0 _ scores_store eq_refl)).
    repeat constructor.
  - by apply (proj1 (proj2 (DictField_filter_input_spec scores 0 _ scores_store
                eq_refl)) [] (KInt 5, VPrim (PInt 1))
                [(KStr "ann", VPrim (PInt 2))]).
Defined.

(** ** What filtering leaves alone *)

Lemma setitem_frame target k v s r s' b o :
  target ≠ VRef b →
  heap s !! b = Some o →
  setitem target k v s = (r, s') →
  heap s' !! b = Some o.
Proof.
  intros Hne Hb. unfold setitem. run.
  destruct target as [p|a]; [by intros [= <- <-]|].
  assert (a ≠ b) as Hab by congruence.
  destruct (heap s !! a) as [[l|d]|]; [| |by intros [= <- <-]].
  - destruct k as [k|n]; [by intros [= <- <-]|].
    repeat case_bool_decide; intros [= <- <-]; simpl;
      by rewrite ?list_lookup_insert_ne.
  - intros [= <- <-]. simpl. by rewrite list_lookup_insert_ne.
Qed.

Lemma filter_items_frame keytype (f : datum → M datum) error shown data_out
  items b o :
  b ≠ data_out →
  (∀ kv, kv ∈ items → ∀ s r s',
     heap s !! b = Some o → f kv.2 s = (r, s') → heap s' !! b = Some o) →
  ∀ s r s',
    heap s !! b = Some o →
    filter_items keytype f error shown data_out items s = (r, s') →
    heap s' !! b = Some o.
Proof.
  intros Hne. induction items as [|[k v] items IH]; intros Hf s r s' Hb.
  - by intros [= <- <-].
  - simpl. destruct (isinstance k keytype); simpl.
    + unfold bind at 1. destruct (f v s) as [[e|v'] s1] eqn:Hv.
      * intros [= <- <-]. apply (Hf (k, v) (list_elem_of_here _ _) s _ _ Hb Hv).
      * pose proof (Hf (k, v) (list_elem_of_here _ _) s _ _ Hb Hv) as Hb1.
        unfold bind at 1.
        destruct (setitem (VRef data_out) k v' s1) as [[e|[]] s2] eqn:Hset.
        -- intros [= <- <-].
           eapply setitem_frame; [|exact Hb1|exact Hset]. congruence.
        -- apply IH.
           ++ intros kv Hkv. apply Hf. by right.
           ++ eapply setitem_frame; [|exact Hb1|exact Hset]. congruence.
    + destruct error; [by intros [= <- <-]|].
      unfold bind at 1, logging_error. simpl. apply IH; [|done].
      intros kv Hkv. apply Hf. by right.
Qed.

Lemma call_filter_input_heap tv v error s :
  heap (TypedValue.call_filter_input tv v error s).2 = heap s.
Proof. done. Qed.

Lemma CompoundDictField_filter_input_run (self : CompoundDictField.t) a items
  error s :
  heap s !! a = Some (ODict items) →
  CompoundDictField.filter_input self (VRef a) error s
  = bind (filter_items (CompoundDictField.d_keytype self)
            (λ val, CompoundValue.filter_input (CompoundDictField.d_value self)
                      val error)
            error (VRef a) (length (heap s)) items)
         (λ _, ret (VRef (length (heap s))))
         (State (heap s ++ [ODict []]) (log s) (stdout s)).
Proof.
  intros Ha. unfold CompoundDictField.filter_input, bind at 1.
  rewrite (expect_dict_dict _ _ _ _ Ha).
  unfold bind at 1, alloc. unfold bind at 1, get_heap, as_dict. simpl.
  rewrite lookup_app_l by (by eapply lookup_lt_Some). by rewrite Ha.
Qed.

Lemma as_dict_Some h data d :
  as_dict h data = Some d → ∃ a, data = VRef a ∧ h !! a = Some (ODict d).
Proof.
  unfold as_dict, deref. destruct data as [p|a]; [done|].
  destruct (h !! a) as [[l|d']|] eqn:Ha; try done. intros [= ->]. eauto.
Qed.

Lemma DictField_filter_input_frame (self : DictField.t) data error s b o :
  heap s !! b = Some o →
  heap (DictField.filter_input self data error s).2 !! b = Some o.
Proof.
  intros Hb. assert (b < length (heap s)) as Hlt by (by eapply lookup_lt_Some).
  destruct (as_dict (heap s) data) as [d|] eqn:Hd.
  - apply as_dict_Some in Hd as (a & -> & Ha).
    rewrite (DictField_filter_input_run self a d error s Ha). unfold bind.
    assert (heap (State (heap s ++ [ODict []]) (log s) (stdout s)) !! b
            = Some o) as Hstart by (by simpl; rewrite lookup_app_l).
    destruct (filter_items _ _ _ _ _ _ _) as [[e|[]] s'] eqn:Hloop; simpl;
      (refine (filter_items_frame _ _ _ _ _ _ b o _ _ _ _ _ Hstart Hloop);
       [lia|]; by intros kv _ s0 r s1 Hs0 [= _ <-]).
  - unfold DictField.filter_input, bind at 1.
    rewrite (expect_dict_other _ _ _ Hd). destruct error; [done|].
    unfold bind at 1, alloc. unfold bind at 1, get_heap, as_dict. simpl.
    rewrite lookup_app_l by (rewrite length_app; simpl; lia).
    rewrite lookup_last. simpl. by rewrite !lookup_app_l by (rewrite ?length_app; lia).
Qed.

Lemma DictField_filter_input_fresh (self : DictField.t) data error s v s' :
  DictField.filter_input self data error s = (inr v, s') →
  ∃ out, v = VRef out ∧ length (heap s) ≤ out.
Proof.
  unfold DictField.filter_input.
  intros (a & s1 & Hexp & Hrun)%bind_inr.
  apply bind_inr in Hrun as (out & s2 & Halloc & Hrun).
  apply bind_inr in Hrun as (h & s3 & _ & Hrun).
  apply bind_inr in Hrun as (u & s4 & _ & [= <- _]).
  exists out. split; [done|].
  revert Halloc. unfold alloc. intros [= <- _].
  destruct (as_dict (heap s) data) as [d|] eqn:Hd.
  - apply as_dict_Some in Hd as (a' & -> & Ha).
    rewrite (expect_dict_dict _ _ _ _ Ha) in Hexp. by injection Hexp as _ <-.
  - rewrite (expect_dict_other _ _ _ Hd) in Hexp. destruct error; [done|].
    injection Hexp as _ <-. simpl. rewrite length_app. lia.
Qed.

Lemma ListField_filter_input_same (self : ListField.t) a l error s v s' :
  heap s !! a = Some (OList l) →
  ListField.filter_input self (VRef a) error s = (inr v, s') →
  v = VRef a.
Proof.
  intros Ha. unfold ListField.filter_input, bind at 1.
  rewrite (expect_list_list _ _ _ _ Ha).
  intros (h & s1 & _ & Hrun)%bind_inr.
  by apply bind_inr in Hrun as (u & s2 & _ & [= <- _]).
Qed.

Lemma CompoundListField_filter_input_same (self : CompoundListField.t) a l
  error s v s' :
  heap s !! a = Some (OList l) →
  CompoundListField.filter_input self (VRef a) error s = (inr v, s') →
  v = VRef a.
Proof.
  intros Ha. unfold CompoundListField.filter_input, bind at 1.
  rewrite (expect_list_list _ _ _ _ Ha).
  intros (h & s1 & _ & Hrun)%bind_inr.
  by apply bind_inr in Hrun as (u & s2 & _ & [= <- _]).
Qed.

Lemma record_filter_input_frame k tv v error b o s r s' :
  v ≠ VRef b →
  heap s !! b = Some o →
  record_filter_input k tv v error s = (r, s') →
  heap s' !! b = Some o.
Proof.
  intros Hne Hb. unfold record_filter_input, bind at 1, get_heap. simpl.
  assert (∀ r s', (if error then raise err_dict_expected
                   else do_ logging_error msg_non_dict v;
                        do a <- alloc (ODict [(KStr k,
                                   VPrim (TypedValue.get_default_data tv))]);
                        ret (VRef a)) s = (r, s') → heap s' !! b = Some o)
    as Hother.
  { intros r0 s0. destruct error; [by intros [= <- <-]|].
    run. intros [= <- <-]. simpl. rewrite lookup_app_l; [done|].
    by eapply lookup_lt_Some. }
  destruct v as [p|a]; [apply Hother|].
  destruct (as_dict (heap s) (VRef a)) as [d|]; [|apply Hother].
  destruct (dict_get (KStr k) d) as [x|].
  - unfold bind at 1, TypedValue.call_filter_input.
    destruct (TypedValue.filter_input tv x error) as [ds [e|x']]; simpl.
    + by intros [= <- <-].
    + unfold bind at 1.
      destruct (setitem _ _ _ _) as [[e|[]] s1] eqn:Hset.
      * intros [= <- <-]. by eapply setitem_frame; [exact Hne| |exact Hset].
      * intros [= <- <-]. by eapply setitem_frame; [exact Hne| |exact Hset].
  - unfold bind at 1.
    destruct (setitem _ _ _ _) as [[e|[]] s1] eqn:Hset.
    + intros [= <- <-]. by eapply setitem_frame; [exact Hne| |exact Hset].
    + intros [= <- <-]. by eapply setitem_frame; [exact Hne| |exact Hset].
Qed.

(** C10: [DictField.filter_input] and [CompoundDictField.filter_input]
    build their result in a new mapping and leave the mapping they are
    given as it was, whether they return or raise; the list variants
    return the very list they were given (which they update in place, see
    [ListField_filter_input_spec]).  For the compound dict, whose nested
    schema filters each value in place, this holds as long as filtering a
    value does not reach back to the mapping that holds it. *)
Theorem filter_input_sharing :
  (∀ (self : DictField.t) data error s b o,
     heap s !! b = Some o →
     heap (DictField.filter_input self data error s).2 !! b = Some o)
  ∧ (∀ (self : DictField.t) data error s v s',
     DictField.filter_input self data error s = (inr v, s') →
     ∃ out, v = VRef out ∧ length (heap s) ≤ out)
  ∧ (∀ (self : CompoundDictField.t) a items error s,
     heap s !! a = Some (ODict items) →
     (∀ kv, kv ∈ items → ∀ s0 r s1,
        heap s0 !! a = Some (ODict items) →
        CompoundValue.filter_input (CompoundDictField.d_value self) kv.2 error s0
        = (r, s1) →
        heap s1 !! a = Some (ODict items)) →
     heap (CompoundDictField.filter_input self (VRef a) error s).2 !! a
     = Some (ODict items)
     ∧ ∀ v s',
         CompoundDictField.filter_input self (VRef a) error s = (inr v, s') →
         v = VRef (length (heap s)))
  ∧ (∀ (self : ListField.t) a l error s v s',
     heap s !! a = Some (OList l) →
     ListField.filter_input self (VRef a) error s = (inr v, s') →
     v = VRef a)
  ∧ (∀ (self : CompoundListField.t) a l error s v s',
     heap s !! a = Some (OList l) →
     CompoundListField.filter_input self (VRef a) error s = (inr v, s') →
     v = VRef a).
Proof.
  split; [|split; [|split; [|split]]].
  - apply DictField_filter_input_frame.
  - apply DictField_filter_input_fresh.
  - intros self a items error s Ha Hf.
    assert (a < length (heap s)) as Hlt by (by eapply lookup_lt_Some).
    rewrite (CompoundDictField_filter_input_run self a items error s Ha).
    unfold bind.
    assert (heap (State (heap s ++ [ODict []]) (log s) (stdout s)) !! a
            = Some (ODict items)) as Hstart by (by simpl; rewrite lookup_app_l).
    destruct (filter_items _ _ _ _ _ _ _) as [[e|[]] s1] eqn:Hloop; simpl.
    + split; [|done].
      refine (filter_items_frame _ _ _ _ _ _ a _ _ Hf _ _ _ Hstart Hloop). lia.
    + split; [|by intros v s' [= <- _]].
      refine (filter_items_frame _ _ _ _ _ _ a _ _ Hf _ _ _ Hstart Hloop). lia.
  - apply ListField_filter_input_same.
  - apply CompoundListField_filter_input_same.
Qed.

Lemma filter_input_sharing_witness :
  heap (DictField.filter_input scores (VRef 0) true scores_store).2 !! 0
  = Some (ODict [(KInt 5, VPrim (PInt 1)); (KStr "ann", VPrim (PInt 2))])
  ∧ heap (CompoundDictField.filter_input named_cars (VRef 0) true
            named_store).2 !! 0
    = Some (ODict [(KStr "mine", VRef 1)])
  ∧ heap (CompoundDictField.filter_input named_cars (VRef 0) true
            named_store).2 !! 1
    = Some (ODict [(KStr "color", VPrim (PStr "red"))])
  ∧ (ListField.filter_input wheels (VRef 0) false wheels_store).1
    = inr (VRef 0).
Proof.
  split; [|split; [|split]].
  - by apply (proj1 filter_input_sharing scores (VRef 0) true scores_store 0).
  - apply (proj1 (proj2 (proj2 filter_input_sharing)) named_cars 0
             [(KStr "mine", VRef 1)] true named_store eq_refl).
    intros kv Hkv s0 r s1 Hs0.
    apply list_elem_of_singleton in Hkv as ->.
    by apply record_filter_input_frame.
  - vm_compute. reflexivity.
  - destruct (ListField.filter_input wheels (VRef 0) false wheels_store)
      as [[e|v] s'] eqn:Hrun; [by vm_compute in Hrun|].
    simpl. f_equal.
    by apply (proj1 (proj2 (proj2 (proj2 filter_input_sharing))) wheels 0 _
                 false wheels_store v s' eq_refl).
Defined.

(** ** Assignment to a compound field *)

(** C2, where the code departs from it: assigning to a [Vehicle] field an
    entity of a class with more fields, which has a live document, does not
    raise the value mismatch the source prepares: building its message
    reads [value.d_value], which an instance of a [CompoundValue] class
    does not have, and the attribute failure is what comes out.  The same
    document assigned through a bound view gets the value mismatch. *)
Theorem CompoundField_set_entity_with_more_fields :
  getattr_d_data sports_car_entity = Some (VRef 2)
  ∧ CompoundValue.get_fields (CompoundField.d_value vehicle_field)
    ≠ CompoundValue.get_fields sports_car
  ∧ CompoundField.__set__ vehicle_field owner sports_car_entity owner_store
    = (inl err_no_d_value, owner_store)
  ∧ is_value_mismatch err_no_d_value = false
  ∧ CompoundField.__set__ vehicle_field owner sports_car_view owner_store
    = (inl err_assign_fields, owner_store)
  ∧ is_value_mismatch err_assign_fields = true.
Proof. repeat split; try done. Qed.

(** X1: the refusals of [CompoundField.__set__] that do raise a value
    mismatch, and the state they leave.  A value that is neither a bound
    view nor an instance of a compound class, a view or an instance
    without a live document, and a bound view over a schema with other
    fields are each refused with their own message, and the store, the
    log and the output stay as they were. *)
Lemma CompoundField_set_refusals (self : CompoundField.t) (obj : entity)
  (value : pyval) (s : state) :
  ((∀ dv d, value ≠ PyObj (PyBound dv d)) →
   (∀ cv d b, value ≠ PyObj (PyCompound cv d b)) →
   CompoundField.__set__ self obj value s = (inl err_assign_type, s))
  ∧ (∀ dv, value = PyObj (PyBound dv (VPrim PNone)) →
     CompoundField.__set__ self obj value s = (inl err_assign_unbound, s))
  ∧ (∀ cv d b, value = PyObj (PyCompound cv d b) →
     d = None ∨ d = Some (VPrim PNone) →
     CompoundField.__set__ self obj value s = (inl err_assign_unbound, s))
  ∧ (∀ dv d, value = PyObj (PyBound dv d) →
     d ≠ VPrim PNone →
     CompoundValue.get_fields (CompoundField.d_value self)
     ≠ CompoundValue.get_fields dv →
     CompoundField.__set__ self obj value s = (inl err_assign_fields, s)).
Proof.
  unfold CompoundField.__set__. repeat split.
  - intros Hb Hc. destruct value as [[v|dv d|cv d b]|l|d]; try done.
    + by destruct (Hb dv d).
    + by destruct (Hc cv d b).
  - by intros dv ->.
  - by intros cv d b -> [-> | ->].
  - intros dv d -> Hd Hfields. run.
    rewrite bool_decide_eq_false_2 by done. simpl.
    destruct d as [[]|]; done.
Qed.

(** A schema with strictly more fields is not the same field set. *)
Lemma more_fields_differ (fields extra : list descriptor) :
  extra ≠ [] → fields ≠ fields ++ extra.
Proof.
  intros Hextra Heq. apply Hextra.
  apply (f_equal length) in Heq. rewrite length_app in Heq.
  destruct extra; [done|simpl in Heq; lia].
Qed.

Lemma CompoundField_set_refusals_witness :
  CompoundField.__set__ vehicle_field owner (PyList []) owner_store
  = (inl err_assign_type, owner_store)
  ∧ CompoundField.__set__ vehicle_field owner
      (PyObj (PyBound vehicle (VPrim PNone))) owner_store
    = (inl err_assign_unbound, owner_store)
  ∧ CompoundField.__set__ vehicle_field owner
      (PyObj (PyCompound vehicle None true)) owner_store
    = (inl err_assign_unbound, owner_store)
  ∧ CompoundField.__set__ vehicle_field owner sports_car_view owner_store
    = (inl err_assign_fields, owner_store).
Proof.
  split_and!.
  - by apply (proj1 (CompoundField_set_refusals vehicle_field owner (PyList [])
                       owner_store)).
  - by apply (proj1 (proj2 (CompoundField_set_refusals vehicle_field owner _
                              owner_store)) vehicle).
  - apply (proj1 (proj2 (proj2 (CompoundField_set_refusals vehicle_field owner
                                  _ owner_store))) vehicle None true eq_refl).
    by left.
  - apply (proj2 (proj2 (proj2 (CompoundField_set_refusals vehicle_field owner
                                  _ owner_store))) sports_car (VRef 2) eq_refl);
      [done|].
    by apply (more_fields_differ (CompoundValue.get_fields vehicle)).
Defined.

(** ** The deep copy of a document *)

Lemma memo_get_None a m : memo_get a m = None ↔ a ∉ m.*1.
Proof.
  induction m as [|[a0 y] m IH]; simpl.
  - split; [intros _; apply not_elem_of_nil|done].
  - rewrite not_elem_of_cons. case_bool_decide as Ha.
    + split; [done|]. intros [Hne _]. by destruct Hne.
    + rewrite IH. split; [|by intros [_ ?]].
      intros Hm. split; [congruence|done].
Qed.

Lemma keys_below (ks : list nat) n :
  NoDup ks → (∀ k, k ∈ ks → k < n) → length ks ≤ n.
Proof.
  intros Hnd Hks. transitivity (length (seq 0 n)); [|by rewrite length_seq].
  apply submseteq_length, NoDup_submseteq; [done|].
  intros k Hk. apply elem_of_seq. specialize (Hks k Hk). lia.
Qed.

Lemma apart_mono lo hi hi' v : hi ≤ hi' → apart lo hi v → apart lo hi' v.
Proof. destruct v; simpl; [done|lia]. Qed.

Lemma dict_set_values (P : datum → Prop) k v d :
  Forall P d.*2 → P v → Forall P (dict_set k v d).*2.
Proof.
  intros Hd Hv. induction d as [|[k' v'] d IH]; simpl.
  - by constructor.
  - apply Forall_cons_1 in Hd as [Hv' Hd].
    case_bool_decide; simpl; constructor; auto.
Qed.

Section deepcopy_correct.
Variable h0 : list obj.
Hypothesis h0_closed : closed h0.

(** Replacing an object made since the start by one that still refers to
    such objects only keeps the invariant. *)
Lemma copy_inv_update s m y o :
  copy_inv h0 s m →
  length h0 ≤ y →
  Forall (apart (length h0) (length (heap s))) (refs_of o) →
  copy_inv h0 (State (<[y := o]> (heap s)) (log s) (stdout s)) m.
Proof.
  intros [Hold Hlen Hmemo Hnew Hnd] Hy Ho. split; simpl.
  - intros b Hb. rewrite list_lookup_insert_ne by lia. by apply Hold.
  - by rewrite length_insert.
  - rewrite length_insert. apply Hmemo.
  - intros b o' Hb. rewrite length_insert.
    destruct (decide (y = b)) as [->|Hne].
    + intros Hlook. pose proof (lookup_lt_Some _ _ _ Hlook) as Hlt.
      rewrite length_insert in Hlt.
      rewrite list_lookup_insert_eq in Hlook by done.
      by injection Hlook as <-.
    + rewrite list_lookup_insert_ne by done. by apply Hnew.
  - done.
Qed.

Lemma copy_inv_alloc s m a o :
  copy_inv h0 s m →
  a < length h0 →
  memo_get a m = None →
  refs_of o = [] →
  copy_inv h0 (State (heap s ++ [o]) (log s) (stdout s))
    ((a, length (heap s)) :: m).
Proof.
  intros [Hold Hlen Hmemo Hnew Hnd] Ha Hm Ho. split; simpl.
  - intros b Hb. rewrite lookup_app_l by lia. by apply Hold.
  - rewrite length_app. lia.
  - intros a' y. rewrite length_app. simpl. case_bool_decide.
    + intros [= <-]. subst. lia.
    + intros Hy. specialize (Hmemo a' y Hy). lia.
  - intros b o' Hb Hlook. rewrite length_app. simpl.
    destruct (decide (b < length (heap s))) as [Hlt|Hge].
    + rewrite lookup_app_l in Hlook by done.
      eapply Forall_impl; [by eapply Hnew|].
      intros v. apply apart_mono. lia.
    + pose proof (lookup_lt_Some _ _ _ Hlook) as Hlt.
      rewrite length_app in Hlt. simpl in Hlt.
      replace b with (length (heap s)) in Hlook by lia.
      rewrite lookup_last in Hlook. injection Hlook as <-.
      rewrite Ho. constructor.
  - apply NoDup_cons. split; [by apply memo_get_None|done].
Qed.

(** An object of [h0] the memo does not know leaves room in the memo,
    hence a level of nesting to spare. *)
Lemma memo_room s m a :
  copy_inv h0 s m →
  a < length h0 →
  memo_get a m = None →
  S (length m) ≤ length h0.
Proof.
  intros [_ _ Hmemo _ Hnd] Ha Hm.
  rewrite <- (length_fmap fst m).
  apply (keys_below (a :: m.*1)).
  - apply NoDup_cons. split; [by apply memo_get_None|done].
  - intros k [->|Hk]%elem_of_cons; [done|].
    destruct (memo_get k m) as [y|] eqn:Hy.
    + by destruct (Hmemo k y Hy).
    + by apply memo_get_None in Hy.
Qed.

Lemma image_ext m m' v :
  (∀ a y, memo_get a m = Some y → memo_get a m' = Some y) →
  covered m v →
  image m' v = image m v ∧ covered m' v.
Proof.
  intros Hext. destruct v as [p|a]; simpl; [done|].
  intros [y Hy]. by rewrite Hy, (Hext a y Hy).
Qed.

Lemma image_list_ext m m' l :
  (∀ a y, memo_get a m = Some y → memo_get a m' = Some y) →
  Forall (covered m) l →
  image m' <$> l = image m <$> l ∧ Forall (covered m') l.
Proof.
  intros Hext. induction 1 as [|v l Hv Hl [IH1 IH2]]; [done|].
  destruct (image_ext m m' v Hext Hv) as [Hi Hc].
  rewrite !fmap_cons, Hi, IH1. split; [done|by constructor].
Qed.

Lemma image_dict_ext m m' (d : list (key * datum)) :
  (∀ a y, memo_get a m = Some y → memo_get a m' = Some y) →
  Forall (covered m) d.*2 →
  prod_map id (image m') <$> d = prod_map id (image m) <$> d
  ∧ Forall (covered m') d.*2.
Proof.
  intros Hext. induction d as [|[k v] d IH]; [done|].
  rewrite !fmap_cons.
  intros [Hv Hd]%Forall_cons_1. destruct (IH Hd) as [IH1 IH2].
  destruct (image_ext m m' v Hext Hv) as [Hi Hc]. simpl in Hv.
  unfold prod_map at 1 3. simpl. rewrite Hi, IH1.
  split; [done|by constructor].
Qed.

Lemma image_obj_ext m m' o :
  (∀ a y, memo_get a m = Some y → memo_get a m' = Some y) →
  Forall (covered m) (refs_of o) →
  image_obj m' o = image_obj m o ∧ Forall (covered m') (refs_of o).
Proof.
  intros Hext Hcov. destruct o as [l|d]; simpl in *.
  - destruct (image_list_ext m m' l Hext Hcov) as [-> ?]. done.
  - destruct (image_dict_ext m m' d Hext Hcov) as [-> ?]. done.
Qed.

Lemma finished_keep s m s' m' a :
  (∀ a y, memo_get a m = Some y → memo_get a m' = Some y) →
  (∀ y, memo_get a m = Some y → heap s' !! y = heap s !! y) →
  finished h0 s m a → finished h0 s' m' a.
Proof.
  intros Hext Hheap (y & o & Hm & Ho & Hy & Hcov).
  destruct (image_obj_ext m m' o Hext Hcov) as [Hi Hc].
  exists y, o. split_and!; [by apply Hext|done| |done].
  by rewrite (Hheap y Hm), Hi.
Qed.

Lemma image_apart s m v :
  copy_inv h0 s m →
  covered m v →
  apart (length h0) (length (heap s)) (image m v).
Proof.
  intros Hinv. destruct v as [p|a]; simpl; [done|].
  intros [y Hy]. rewrite Hy. simpl. by destruct (ci_memo _ _ _ Hinv a y Hy).
Qed.

Lemma copy_ext_refl s m : copy_inv h0 s m → copy_ext h0 s m s m.
Proof. intros Hinv. split; try done. intros a y Hn Hs. congruence. Qed.

(** One round of a loop of the copier, then the rest of the loop: the
    rounds compose.  [s2] is the store after the copy [y1] of the entry was
    put into the object [y0] under construction. *)
Lemma copy_ext_round s m s1 m1 s2 s' m' y0 o2 :
  y0 < length (heap s) →
  copy_ext h0 s m s1 m1 →
  (∀ b, b < length (heap s) → heap s1 !! b = heap s !! b) →
  s2 = State (<[y0 := o2]> (heap s1)) (log s1) (stdout s1) →
  copy_ext h0 s2 m1 s' m' →
  (∀ b, b < length (heap s2) → b ≠ y0 → heap s' !! b = heap s2 !! b) →
  copy_ext h0 s m s' m'
  ∧ (∀ b, b < length (heap s) → b ≠ y0 → heap s' !! b = heap s !! b).
Proof.
  intros Hy0 H1 Hfr1 -> H2 Hfr2. simpl in *.
  pose proof (ce_heap_len _ _ _ _ _ H1) as Hlen1.
  pose proof (ce_heap_len _ _ _ _ _ H2) as Hlen2. simpl in Hlen2.
  rewrite length_insert in Hlen2, Hfr2.
  assert (∀ b, b < length (heap s1) → b ≠ y0 → heap s' !! b = heap s1 !! b)
    as Hfr21.
  { intros b Hb Hne. rewrite Hfr2 by done.
    by rewrite list_lookup_insert_ne. }
  split; [split|].
  - apply (ce_inv _ _ _ _ _ H2).
  - pose proof (ce_memo_len _ _ _ _ _ H1). pose proof (ce_memo_len _ _ _ _ _ H2).
    lia.
  - lia.
  - by rewrite (ce_log _ _ _ _ _ H2), <- (ce_log _ _ _ _ _ H1).
  - by rewrite (ce_stdout _ _ _ _ _ H2), <- (ce_stdout _ _ _ _ _ H1).
  - intros a y Hm. by apply (ce_memo _ _ _ _ _ H2), (ce_memo _ _ _ _ _ H1).
  - intros a y Hm Hm'. destruct (memo_get a m1) as [y1|] eqn:Hm1.
    + rewrite (ce_memo _ _ _ _ _ H2 a y1 Hm1) in Hm'. injection Hm' as <-.
      destruct (ce_new _ _ _ _ _ H1 a y1 Hm Hm1) as [Hy1 Hfin].
      split; [done|].
      apply (finished_keep s1 m1); [apply (ce_memo _ _ _ _ _ H2)| |done].
      intros y Hy. rewrite Hm1 in Hy. injection Hy as <-.
      apply Hfr21; [|lia].
      destruct (ci_memo _ _ _ (ce_inv _ _ _ _ _ H1) a y1 Hm1). lia.
    + destruct (ce_new _ _ _ _ _ H2 a y Hm1 Hm') as [Hy Hfin]. simpl in Hy.
      rewrite length_insert in Hy. split; [lia|done].
  - intros b Hb Hne. rewrite Hfr21 by (lia || done). by apply Hfr1.
Qed.

Lemma deepcopy_list_copies copy n :
  copies h0 copy n →
  ∀ l y0 acc m s,
    copy_inv h0 s m →
    length h0 ≤ n + length m →
    Forall (bounded (length h0)) l →
    length h0 ≤ y0 →
    heap s !! y0 = Some (OList acc) →
    ∃ m' s',
      deepcopy_list copy y0 l m s = (inr m', s')
      ∧ copy_ext h0 s m s' m'
      ∧ (∀ b, b < length (heap s) → b ≠ y0 → heap s' !! b = heap s !! b)
      ∧ heap s' !! y0 = Some (OList (acc ++ (image m' <$> l)))
      ∧ Forall (covered m') l.
Proof.
  intros Hcopy.
  induction l as [|x l IH]; intros y0 acc m s Hinv Hfuel Hl Hy0 Hacc.
  - exists m, s. rewrite app_nil_r. split_and!; try done.
    by apply copy_ext_refl.
  - apply Forall_cons_1 in Hl as [Hx Hl].
    destruct (Hcopy x m s Hinv Hfuel Hx)
      as (y1 & m1 & s1 & Hrun & Hext1 & Hfr1 & Hy1 & Hcov1).
    pose proof (lookup_lt_Some _ _ _ Hacc) as Hlt.
    pose proof (ce_inv _ _ _ _ _ Hext1) as Hinv1.
    pose proof (ce_heap_len _ _ _ _ _ Hext1) as Hlen1.
    pose proof (ce_memo_len _ _ _ _ _ Hext1) as Hmlen1.
    assert (heap s1 !! y0 = Some (OList acc)) as Hacc1 by (by rewrite Hfr1).
    set (s2 := State (<[y0 := OList (acc ++ [y1])]> (heap s1)) (log s1)
                 (stdout s1)).
    assert (copy_inv h0 s2 m1) as Hinv2.
    { apply copy_inv_update; [done|done|]. simpl. apply Forall_app. split.
      - apply (ci_new _ _ _ Hinv1 y0 (OList acc) Hy0 Hacc1).
      - constructor; [|done]. rewrite Hy1. by apply image_apart. }
    destruct (IH y0 (acc ++ [y1]) m1 s2 Hinv2)
      as (m' & s' & Hrun' & Hext' & Hfr' & Hacc' & Hcov'); [lia|done|done| |].
    { simpl. apply list_lookup_insert_eq. lia. }
    destruct (copy_ext_round s m s1 m1 s2 s' m' y0 _ Hlt Hext1 Hfr1 eq_refl
                Hext' Hfr') as [Hext Hfr].
    destruct (image_ext m1 m' x (ce_memo _ _ _ _ _ Hext') Hcov1) as [Hi Hc].
    exists m', s'. split_and!; [|done|done| |by constructor].
    + simpl. unfold bind at 1. rewrite Hrun. simpl.
      unfold bind at 1, list_append, bind at 1, get_heap. simpl.
      rewrite Hacc1. exact Hrun'.
    + rewrite Hacc', fmap_cons, Hi, <- Hy1, <- app_assoc. done.
Qed.

Lemma deepcopy_dict_copies copy n :
  copies h0 copy n →
  ∀ d y0 acc m s,
    copy_inv h0 s m →
    length h0 ≤ n + length m →
    Forall (bounded (length h0)) d.*2 →
    length h0 ≤ y0 →
    heap s !! y0 = Some (ODict acc) →
    ∃ m' s',
      deepcopy_dict copy y0 d m s = (inr m', s')
      ∧ copy_ext h0 s m s' m'
      ∧ (∀ b, b < length (heap s) → b ≠ y0 → heap s' !! b = heap s !! b)
      ∧ heap s' !! y0
        = Some (ODict (foldl (λ d kv, dict_set kv.1 kv.2 d) acc
                         (prod_map id (image m') <$> d)))
      ∧ Forall (covered m') d.*2.
Proof.
  intros Hcopy.
  induction d as [|[k x] d IH]; intros y0 acc m s Hinv Hfuel Hd Hy0 Hacc.
  - exists m, s. split_and!; try done. by apply copy_ext_refl.
  - apply Forall_cons_1 in Hd as [Hx Hd]. simpl in Hx.
    destruct (Hcopy x m s Hinv Hfuel Hx)
      as (y1 & m1 & s1 & Hrun & Hext1 & Hfr1 & Hy1 & Hcov1).
    pose proof (lookup_lt_Some _ _ _ Hacc) as Hlt.
    pose proof (ce_inv _ _ _ _ _ Hext1) as Hinv1.
    pose proof (ce_heap_len _ _ _ _ _ Hext1) as Hlen1.
    pose proof (ce_memo_len _ _ _ _ _ Hext1) as Hmlen1.
    assert (heap s1 !! y0 = Some (ODict acc)) as Hacc1 by (by rewrite Hfr1).
    set (s2 := State (<[y0 := ODict (dict_set k y1 acc)]> (heap s1)) (log s1)
                 (stdout s1)).
    assert (copy_inv h0 s2 m1) as Hinv2.
    { apply copy_inv_update; [done|done|]. simpl. apply dict_set_values.
      - apply (ci_new _ _ _ Hinv1 y0 (ODict acc) Hy0 Hacc1).
      - rewrite Hy1. by apply image_apart. }
    destruct (IH y0 (dict_set k y1 acc) m1 s2 Hinv2)
      as (m' & s' & Hrun' & Hext' & Hfr' & Hacc' & Hcov'); [lia|done|done| |].
    { simpl. apply list_lookup_insert_eq. lia. }
    destruct (copy_ext_round s m s1 m1 s2 s' m' y0 _ Hlt Hext1 Hfr1 eq_refl
                Hext' Hfr') as [Hext Hfr].
    destruct (image_ext m1 m' x (ce_memo _ _ _ _ _ Hext') Hcov1) as [Hi Hc].
    exists m', s'. split_and!; [|done|done| |by constructor].
    + simpl. unfold bind at 1. rewrite Hrun. simpl.
      unfold bind at 1. rewrite (setitem_dict y0 acc) by done. exact Hrun'.
    + rewrite Hacc', fmap_cons. simpl. by rewrite Hi, <- Hy1.
Qed.

(** Entering a new object: it is entered in the memo and an empty object
    is made for its copy; when the loop over its items is done, the whole
    step has moved store and memo on as [copy_ext] says. *)
Lemma copy_ext_enter s m a o y0 s1 s' m' :
  copy_inv h0 s m →
  memo_get a m = None →
  h0 !! a = Some o →
  y0 = length (heap s) →
  length (heap s1) = S (length (heap s)) →
  log s1 = log s → stdout s1 = stdout s →
  (∀ b, b < length (heap s) → heap s1 !! b = heap s !! b) →
  copy_ext h0 s1 ((a, y0) :: m) s' m' →
  (∀ b, b < length (heap s1) → b ≠ y0 → heap s' !! b = heap s1 !! b) →
  heap s' !! y0 = Some (image_obj m' o) →
  Forall (covered m') (refs_of o) →
  copy_ext h0 s m s' m'
  ∧ (∀ b, b < length (heap s) → heap s' !! b = heap s !! b)
  ∧ VRef y0 = image m' (VRef a)
  ∧ covered m' (VRef a).
Proof.
  intros Hinv Hm Ho -> Hlen1 Hlog1 Hout1 Hfr1 Hext Hfr Hy0 Hcov.
  assert (memo_get a m' = Some (length (heap s))) as Hm'.
  { apply (ce_memo _ _ _ _ _ Hext). simpl. by rewrite bool_decide_eq_true_2. }
  assert (∀ a' y, memo_get a' m = Some y →
                  memo_get a' ((a, length (heap s)) :: m) = Some y) as Hstep.
  { intros a' y Hy. simpl. rewrite bool_decide_eq_false_2; [done|].
    intros ->. congruence. }
  pose proof (ce_heap_len _ _ _ _ _ Hext) as Hlen'.
  pose proof (ce_memo_len _ _ _ _ _ Hext) as Hmlen'. simpl in Hmlen'.
  split_and!.
  - split.
    + apply (ce_inv _ _ _ _ _ Hext).
    + lia.
    + lia.
    + by rewrite (ce_log _ _ _ _ _ Hext).
    + by rewrite (ce_stdout _ _ _ _ _ Hext).
    + intros a' y Hy. by apply (ce_memo _ _ _ _ _ Hext), Hstep.
    + intros a' y Hn Hs. destruct (decide (a' = a)) as [->|Hne].
      * rewrite Hm' in Hs. injection Hs as <-. split; [done|].
        by exists (length (heap s)), o.
      * destruct (ce_new _ _ _ _ _ Hext a' y) as [Hy Hfin]; [|done|].
        { simpl. by rewrite bool_decide_eq_false_2. }
        split; [lia|done].
  - intros b Hb. rewrite Hfr by lia. by apply Hfr1.
  - simpl. by rewrite Hm'.
  - simpl. by rewrite Hm'.
Qed.

Lemma deepcopy_aux_copies n : copies h0 (deepcopy_aux n) n.
Proof.
  assert (∀ k p m s, copy_inv h0 s m → ∃ y m' s',
            deepcopy_aux k (VPrim p) m s = (inr (y, m'), s')
            ∧ copy_ext h0 s m s' m'
            ∧ (∀ b, b < length (heap s) → heap s' !! b = heap s !! b)
            ∧ y = image m' (VPrim p)
            ∧ covered m' (VPrim p)) as Hprim.
  { intros k p m s Hinv. exists (VPrim p), m, s.
    destruct k; split_and!; try done; by apply copy_ext_refl. }
  assert (∀ k a y m s, copy_inv h0 s m → memo_get a m = Some y → ∃ y m' s',
            deepcopy_aux k (VRef a) m s = (inr (y, m'), s')
            ∧ copy_ext h0 s m s' m'
            ∧ (∀ b, b < length (heap s) → heap s' !! b = heap s !! b)
            ∧ y = image m' (VRef a)
            ∧ covered m' (VRef a)) as Hhit.
  { intros k a y m s Hinv Hm. exists (VRef y), m, s.
    destruct k; simpl; rewrite Hm; split_and!; try done;
      by apply copy_ext_refl. }
  induction n as [|n IH]; intros x m s Hinv Hfuel Hx.
  { destruct x as [p|a]; [by apply Hprim|].
    destruct (memo_get a m) as [y|] eqn:Hm; [by eapply Hhit|].
    pose proof (memo_room s m a Hinv Hx Hm). lia. }
  destruct x as [p|a]; [by apply Hprim|].
  destruct (memo_get a m) as [y1|] eqn:Hm; [by eapply Hhit|].
  simpl in Hx.
  destruct (lookup_lt_is_Some_2 h0 a Hx) as [o Ho].
  assert (heap s !! a = Some o) as Hso by (by rewrite (ci_old _ _ _ Hinv)).
  pose proof (ci_len _ _ _ Hinv) as Hlen.
  pose proof (h0_closed a o Ho) as Hrefs.
  set (y0 := length (heap s)).
  destruct o as [l|d].
  - set (s1 := State (heap s ++ [OList []]) (log s) (stdout s)).
    destruct (deepcopy_list_copies _ n IH l y0 [] ((a, y0) :: m) s1)
      as (m' & s' & Hrun & Hext & Hfr & Hacc & Hcov);
      [by apply copy_inv_alloc|simpl; lia|done|done|apply lookup_last|].
    destruct (copy_ext_enter s m a (OList l) y0 s1 s' m')
      as (Hext' & Hfr' & Hy & Hc); try done.
    { simpl. rewrite length_app. simpl. lia. }
    { intros b Hb. simpl. by rewrite lookup_app_l. }
    exists (VRef y0), m', s'. split_and!; try done.
    simpl. rewrite Hm. unfold bind at 1, get_heap. simpl. rewrite Hso.
    unfold bind at 1, alloc. simpl. unfold bind at 1.
    fold y0 s1. by rewrite Hrun.
  - set (s1 := State (heap s ++ [ODict []]) (log s) (stdout s)).
    destruct (deepcopy_dict_copies _ n IH d y0 [] ((a, y0) :: m) s1)
      as (m' & s' & Hrun & Hext & Hfr & Hacc & Hcov);
      [by apply copy_inv_alloc|simpl; lia|done|done|apply lookup_last|].
    destruct (copy_ext_enter s m a (ODict d) y0 s1 s' m')
      as (Hext' & Hfr' & Hy & Hc); try done.
    { simpl. rewrite length_app. simpl. lia. }
    { intros b Hb. simpl. by rewrite lookup_app_l. }
    exists (VRef y0), m', s'. split_and!; try done.
    simpl. rewrite Hm. unfold bind at 1, get_heap. simpl. rewrite Hso.
    unfold bind at 1, alloc. simpl. unfold bind at 1.
    fold y0 s1. by rewrite Hrun.
Qed.
End deepcopy_correct.

(** [copy.deepcopy] of a datum of a closed store returns.  It changes no
    object that was there and logs nothing.  The memo it ends with maps
    each object it went through to a new object that is its copy: the same
    items in the same order, each item replaced by its own copy; the
    result is the copy of the argument; and the new objects refer to new
    objects only. *)
Lemma deepcopy_returns x s :
  closed (heap s) →
  bounded (length (heap s)) x →
  ∃ y m s',
    deepcopy x s = (inr y, s')
    ∧ y = image m x
    ∧ covered m x
    ∧ (∀ a y', memo_get a m = Some y' →
         length (heap s) ≤ y' < length (heap s')
         ∧ ∃ o, heap s !! a = Some o
                ∧ heap s' !! y' = Some (image_obj m o)
                ∧ Forall (covered m) (refs_of o))
    ∧ (∀ b, b < length (heap s) → heap s' !! b = heap s !! b)
    ∧ (∀ b o, length (heap s) ≤ b → heap s' !! b = Some o →
         Forall (apart (length (heap s)) (length (heap s'))) (refs_of o))
    ∧ log s' = log s ∧ stdout s' = stdout s.
Proof.
  intros Hclosed Hx.
  assert (copy_inv (heap s) s []) as Hinv.
  { split; simpl; try done.
    - intros b o Hb Hlook. apply lookup_lt_Some in Hlook. lia.
    - constructor. }
  destruct (deepcopy_aux_copies (heap s) Hclosed (length (heap s)) x [] s Hinv)
    as (y & m & s' & Hrun & Hext & Hfr & Hy & Hcov); [simpl; lia|done|].
  pose proof (ce_inv _ _ _ _ _ Hext) as Hinv'.
  exists y, m, s'. split_and!; try done.
  - unfold deepcopy. run. by rewrite Hrun.
  - intros a y' Hm.
    destruct (ce_new _ _ _ _ _ Hext a y' eq_refl Hm)
      as [Hge (y2 & o & Hm2 & Ho & Hy2 & Hc)].
    rewrite Hm in Hm2. injection Hm2 as <-.
    split; [|by exists o].
    destruct (ci_memo _ _ _ Hinv' a y' Hm). lia.
  - apply (ci_new _ _ _ Hinv').
  - apply (ce_log _ _ _ _ _ Hext).
  - apply (ce_stdout _ _ _ _ _ Hext).
Qed.


Lemma owner_store_closed : closed (heap owner_store).
Proof.
  intros a o Ha.
  do 4 (destruct a as [|a];
        [injection Ha as <-; simpl; repeat (constructor; [simpl; try lia|]);
         by constructor|]).
  done.
Qed.


(** An owner is assigned a vehicle document: the copy is made
    of new objects, list included. *)
Example CompoundField_set_example :
  CompoundField.__set__ vehicle_field owner vehicle_view owner_store
  = (inr tt,
     State [ODict [(KStr "vehicle", VRef 4)];
            ODict [(KStr "color", VPrim (PStr "red"))];
            ODict [(KStr "color", VPrim (PStr "blue")); (KStr "wheels", VRef 3)];
            OList [VPrim (PInt 4)];
            ODict [(KStr "color", VPrim (PStr "blue")); (KStr "wheels", VRef 5)];
            OList [VPrim (PInt 4)]] [] []).
Proof. vm_compute. reflexivity. Qed.

(** ** Reading a field *)

Lemma dict_get_set k v d : dict_get k (dict_set k v d) = Some v.
Proof.
  induction d as [|[k' v'] d IH]; simpl.
  - by rewrite bool_decide_eq_true_2.
  - case_bool_decide as Hk; simpl.
    + by rewrite bool_decide_eq_true_2.
    + by rewrite bool_decide_eq_false_2.
Qed.

Lemma dict_get_set_ne k k' v d :
  k' ≠ k → dict_get k' (dict_set k v d) = dict_get k' d.
Proof.
  intros Hne. induction d as [|[k0 v0] d IH]; simpl.
  - by rewrite bool_decide_eq_false_2.
  - case_bool_decide as Hk; simpl.
    + subst k0. by rewrite !bool_decide_eq_false_2.
    + by rewrite IH.
Qed.

(** The subscript behind an [assert k in d] never misses the key. *)
Lemma getitem_asserted_no_KeyError h target k k' :
  getitem_asserted h target k ≠ inl (KeyError k').
Proof.
  unfold getitem_asserted, contains, getitem.
  destruct target as [[| | |s]|a]; try done.
  - by destruct (occurs_in k s).
  - destruct (h !! a) as [[l|d]|]; try done.
    + by case_bool_decide.
    + by destruct (dict_get (KStr k) d).
Qed.

Lemma getitem_root h r root k :
  h !! r = Some (ODict root) →
  getitem h (VRef r) k
  = match dict_get (KStr k) root with
    | Some v => inr v
    | None => inl (KeyError (KStr k))
    end.
Proof. intros Hr. unfold getitem. by rewrite Hr. Qed.

Lemma getitem_asserted_root h r root k :
  h !! r = Some (ODict root) →
  getitem_asserted h (VRef r) k
  = match dict_get (KStr k) root with
    | Some v => inr v
    | None => inl AssertionError
    end.
Proof.
  intros Hr. unfold getitem_asserted, contains, getitem. rewrite Hr.
  by destruct (dict_get (KStr k) root).
Qed.

Lemma getitem_KeyError h target k k' :
  getitem h target k = inl (KeyError k')
  ↔ k' = KStr k
    ∧ ∃ d, deref h target = Some (ODict d) ∧ dict_get (KStr k) d = None.
Proof.
  unfold getitem, deref. split.
  - destruct target as [[| | |s]|a]; try done.
    destruct (h !! a) as [[l|d]|]; try done.
    destruct (dict_get (KStr k) d) eqn:Hget; try done.
    intros [= <-]. eauto.
  - intros [-> (d & Hd & Hget)].
    destruct target as [p|a]; [done|]. by rewrite Hd, Hget.
Qed.

(** X3: reading a field of an entity.  The three compound descriptors
    guard the subscript by an [assert] on the key, and so never fail with
    a [KeyError], whatever the root document is; [ListField] and
    [DictField] have no such guard and fail with a [KeyError], for their
    own key, exactly when the root document is a dict that lacks it.
    Where the root document is a dict, a key it holds gives, from all
    five, a view bound to the very slice stored there (nothing is copied,
    nothing is validated), and a key it lacks fails the assertion of the
    compound descriptors. *)
Theorem get_missing_key (h : list obj) (obj : entity) :
  (∀ k,
     (∀ self, CompoundField.__get__ self h (Some obj) ≠ inl (KeyError k))
     ∧ (∀ self, CompoundListField.__get__ self h (Some obj) ≠ inl (KeyError k))
     ∧ (∀ self, CompoundDictField.__get__ self h (Some obj) ≠ inl (KeyError k)))
  ∧ (∀ self k,
       ListField.__get__ self h (Some obj) = inl (KeyError k)
       ↔ k = KStr (ListField.d_key self)
         ∧ ∃ root, deref h (d_data obj) = Some (ODict root)
                   ∧ dict_get (KStr (ListField.d_key self)) root = None)
  ∧ (∀ self k,
       DictField.__get__ self h (Some obj) = inl (KeyError k)
       ↔ k = KStr (DictField.d_key self)
         ∧ ∃ root, deref h (d_data obj) = Some (ODict root)
                   ∧ dict_get (KStr (DictField.d_key self)) root = None)
  ∧ (∀ root, deref h (d_data obj) = Some (ODict root) →
       (∀ self,
          CompoundField.__get__ self h (Some obj)
          = match dict_get (KStr (CompoundField.d_key self)) root with
            | Some v => inr (OnInstance (PyBound (CompoundField.d_value self) v))
            | None => inl AssertionError
            end)
       ∧ (∀ self,
            CompoundListField.__get__ self h (Some obj)
            = match dict_get (KStr (CompoundListField.d_key self)) root with
              | Some v => inr (OnInstance (Bound self v))
              | None => inl AssertionError
              end)
       ∧ (∀ self,
            CompoundDictField.__get__ self h (Some obj)
            = match dict_get (KStr (CompoundDictField.d_key self)) root with
              | Some v => inr (OnInstance (Bound self v))
              | None => inl AssertionError
              end)
       ∧ (∀ self v,
            dict_get (KStr (ListField.d_key self)) root = Some v →
            ListField.__get__ self h (Some obj)
            = inr (OnInstance (Bound self v)))
       ∧ (∀ self v,
            dict_get (KStr (DictField.d_key self)) root = Some v →
            DictField.__get__ self h (Some obj)
            = inr (OnInstance (DictField._keytype self, Bound self v))))
  ∧ ((∀ self, CompoundField.__get__ self h None = inr (OnClass self))
     ∧ (∀ self, ListField.__get__ self h None = inr (OnClass self))
     ∧ (∀ self, DictField.__get__ self h None = inr (OnClass self))
     ∧ (∀ self, CompoundListField.__get__ self h None = inr (OnClass self))
     ∧ (∀ self, CompoundDictField.__get__ self h None = inr (OnClass self))).
Proof.
  split_and!; try done.
  - intros k. split_and!; intros self;
      unfold CompoundField.__get__, CompoundListField.__get__,
        CompoundDictField.__get__;
      match goal with
      | |- context [getitem_asserted ?h ?t ?k0] =>
          pose proof (getitem_asserted_no_KeyError h t k0 k) as Hno;
          destruct (getitem_asserted h t k0); congruence
      end.
  - intros self k. unfold ListField.__get__.
    rewrite <- getitem_KeyError.
    destruct (getitem h (d_data obj) (ListField.d_key self)) as [e|v];
      [|done].
    split; congruence.
  - intros self k. unfold DictField.__get__.
    rewrite <- getitem_KeyError.
    destruct (getitem h (d_data obj) (DictField.d_key self)) as [e|v];
      [|done].
    split; congruence.
  - intros root Hroot.
    destruct (d_data obj) as [p|r] eqn:Hobj; [done|]. simpl in Hroot.
    split_and!; intros self.
    + unfold CompoundField.__get__.
      rewrite Hobj, (getitem_asserted_root _ _ _ _ Hroot).
      by destruct (dict_get _ root).
    + unfold CompoundListField.__get__.
      rewrite Hobj, (getitem_asserted_root _ _ _ _ Hroot).
      by destruct (dict_get _ root).
    + unfold CompoundDictField.__get__.
      rewrite Hobj, (getitem_asserted_root _ _ _ _ Hroot).
      by destruct (dict_get _ root).
    + intros v Hv. unfold ListField.__get__.
      by rewrite Hobj, (getitem_root _ _ _ _ Hroot), Hv.
    + intros v Hv. unfold DictField.__get__.
      by rewrite Hobj, (getitem_root _ _ _ _ Hroot), Hv.
Qed.

Lemma get_missing_key_witness :
  CompoundListField.__get__ garage (heap fleet_store) (Some fleet)
  = inr (OnInstance (Bound garage (VRef 1)))
  ∧ CompoundDictField.__get__ named_cars (heap fleet_store) (Some fleet)
    = inl AssertionError
  ∧ ListField.__get__ wheels (heap fleet_store) (Some fleet)
    = inl (KeyError (KStr "wheels")).
Proof.
  pose proof (get_missing_key (heap fleet_store) fleet)
    as (_ & Hlist & _ & Hroot & _).
  destruct (Hroot _ eq_refl) as (_ & Hcl & Hcd & _).
  split_and!.
  - apply (Hcl garage).
  - apply (Hcd named_cars).
  - apply Hlist. split; [done|]. by eexists.
Defined.

(** ** The footprint of an assignment *)

Lemma keeps_refl n s : keeps n s s.
Proof. by unfold keeps. Qed.

Lemma keeps_trans n s1 s2 s3 : keeps n s1 s2 → keeps n s2 s3 → keeps n s1 s3.
Proof.
  intros (Hl1 & Hf1 & Hg1 & Ho1) (Hl2 & Hf2 & Hg2 & Ho2).
  split_and!; [lia| |congruence|congruence].
  intros b Hb. by rewrite Hf2, Hf1.
Qed.

Lemma alloc_keeps n o s : n ≤ length (heap s) → keeps n s (alloc o s).2.
Proof.
  intros Hn. unfold keeps, alloc. simpl.
  split_and!; try done.
  - rewrite length_app. lia.
  - intros b Hb. rewrite lookup_app_l; [done|lia].
Qed.

Lemma list_append_keeps n y v s : n ≤ y → keeps n s (list_append y v s).2.
Proof.
  intros Hy. unfold list_append. run.
  destruct (heap s !! y) as [[l|d]|]; simpl; try apply keeps_refl.
  unfold keeps. simpl. split_and!; try done.
  - by rewrite length_insert.
  - intros b Hb. rewrite list_lookup_insert_ne; [done|lia].
Qed.

Lemma setitem_keeps n y k v s : n ≤ y → keeps n s (setitem (VRef y) k v s).2.
Proof.
  intros Hy. unfold setitem. run.
  destruct (heap s !! y) as [[l|d]|]; simpl; try apply keeps_refl.
  - destruct k as [k|i]; [apply keeps_refl|].
    repeat case_bool_decide; simpl; try apply keeps_refl;
      (unfold keeps; simpl; split_and!; try done;
       [by rewrite length_insert
       |intros b Hb; rewrite list_lookup_insert_ne; [done|lia]]).
  - unfold keeps. simpl. split_and!; try done.
    + by rewrite length_insert.
    + intros b Hb. rewrite list_lookup_insert_ne; [done|lia].
Qed.

Lemma setitem_quiet target k v s :
  length (heap (setitem target k v s).2) = length (heap s)
  ∧ log (setitem target k v s).2 = log s
  ∧ stdout (setitem target k v s).2 = stdout s.
Proof.
  unfold setitem. run.
  destruct target as [p|a]; [done|].
  destruct (heap s !! a) as [[l|d]|]; simpl; try done.
  - destruct k as [k|i]; [done|].
    repeat case_bool_decide; simpl; by rewrite ?length_insert.
  - by rewrite length_insert.
Qed.

Section copy_keeps.
Variable copy : datum → memo → M (datum * memo).
Variable n : nat.
Hypothesis copy_keeps :
  ∀ x m s, n ≤ length (heap s) → keeps n s (copy x m s).2.

Lemma deepcopy_list_keeps y l m s :
  n ≤ y → n ≤ length (heap s) → keeps n s (deepcopy_list copy y l m s).2.
Proof.
  intros Hy. revert m s.
  induction l as [|x l IH]; intros m s Hs; simpl; [apply keeps_refl|].
  unfold bind at 1.
  pose proof (copy_keeps x m s Hs) as H1.
  destruct (copy x m s) as [[e|r] s1]; simpl in *; [done|].
  unfold bind at 1.
  pose proof (list_append_keeps n y r.1 s1 Hy) as H2.
  destruct (list_append y r.1 s1) as [[e|[]] s2]; simpl in *.
  - by eapply keeps_trans.
  - eapply keeps_trans; [by eapply keeps_trans|].
    apply IH. destruct H1 as [? _], H2 as [? _]. lia.
Qed.

Lemma deepcopy_dict_keeps y d m s :
  n ≤ y → n ≤ length (heap s) → keeps n s (deepcopy_dict copy y d m s).2.
Proof.
  intros Hy. revert m s.
  induction d as [|[k x] d IH]; intros m s Hs; simpl; [apply keeps_refl|].
  unfold bind at 1.
  pose proof (copy_keeps x m s Hs) as H1.
  destruct (copy x m s) as [[e|r] s1]; simpl in *; [done|].
  unfold bind at 1.
  pose proof (setitem_keeps n y k r.1 s1 Hy) as H2.
  destruct (setitem (VRef y) k r.1 s1) as [[e|[]] s2]; simpl in *.
  - by eapply keeps_trans.
  - eapply keeps_trans; [by eapply keeps_trans|].
    apply IH. destruct H1 as [? _], H2 as [? _]. lia.
Qed.
End copy_keeps.

Lemma deepcopy_aux_keeps fuel n x m s :
  n ≤ length (heap s) → keeps n s (deepcopy_aux fuel x m s).2.
Proof.
  revert n x m s.
  induction fuel as [|fuel IH]; intros n x m s Hn;
    (destruct x as [p|a]; simpl; [apply keeps_refl|]);
    (destruct (memo_get a m); [apply keeps_refl|]); run;
    (destruct (heap s !! a) as [o|]; [|apply keeps_refl]).
  - apply keeps_refl.
  - pose proof (alloc_keeps n (OList []) s Hn) as Hl.
    pose proof (alloc_keeps n (ODict []) s Hn) as Hd.
    unfold alloc in *. simpl in *.
    destruct o as [l|d].
    + pose proof (deepcopy_list_keeps (deepcopy_aux fuel) n
                    (λ x m s, IH n x m s) (length (heap s)) l
                    ((a, length (heap s)) :: m)
                    (State (heap s ++ [OList []]) (log s) (stdout s)) Hn) as H.
      simpl in H. rewrite length_app in H. specialize (H ltac:(lia)).
      destruct (deepcopy_list _ _ _ _ _) as [[e|m'] s2]; simpl in *;
        exact (keeps_trans _ _ _ _ Hl H).
    + pose proof (deepcopy_dict_keeps (deepcopy_aux fuel) n
                    (λ x m s, IH n x m s) (length (heap s)) d
                    ((a, length (heap s)) :: m)
                    (State (heap s ++ [ODict []]) (log s) (stdout s)) Hn) as H.
      simpl in H. rewrite length_app in H. specialize (H ltac:(lia)).
      destruct (deepcopy_dict _ _ _ _ _) as [[e|m'] s2]; simpl in *;
        exact (keeps_trans _ _ _ _ Hd H).
Qed.

(** Whatever the store and whether it returns or raises, [copy.deepcopy]
    changes no object that was there and neither logs nor prints. *)
Lemma deepcopy_keeps x s : keeps (length (heap s)) s (deepcopy x s).2.
Proof.
  unfold deepcopy. run.
  pose proof (deepcopy_aux_keeps (length (heap s)) (length (heap s)) x [] s
                (le_n _)) as H.
  by destruct (deepcopy_aux _ _ _ _) as [[e|r] s1].
Qed.

Lemma keeps_others obj s s' : keeps (length (heap s)) s s' → others_kept obj s s'.
Proof.
  intros (_ & Hf & _) b o _ Hb. rewrite Hf; [done|by eapply lookup_lt_Some].
Qed.

Lemma setitem_others obj k v s s1 :
  others_kept obj s s1 → others_kept obj s (setitem (d_data obj) k v s1).2.
Proof.
  intros Hkept b o Hne Hb.
  destruct (setitem (d_data obj) k v s1) as [r s2] eqn:Hset.
  eapply setitem_frame; [exact Hne|by apply Hkept|exact Hset].
Qed.

(** The tail of the three [__set__]: the new value is stored under the
    key. *)
Lemma store_footprint obj k v s s1 :
  keeps (length (heap s)) s s1 →
  log (setitem (d_data obj) k v s1).2 = log s
  ∧ stdout (setitem (d_data obj) k v s1).2 = stdout s
  ∧ others_kept obj s (setitem (d_data obj) k v s1).2.
Proof.
  intros Hkeeps.
  destruct (setitem_quiet (d_data obj) k v s1) as (_ & Hlog & Hout).
  destruct Hkeeps as (Hl & Hf & Hlog1 & Hout1).
  split_and!; [congruence|congruence|].
  by apply setitem_others, keeps_others.
Qed.

(** X4: what an assignment may touch.  Whatever the value, the store and
    the outcome, the three [__set__] change no object that was in the
    store other than the root document of the entity, and log nothing:
    what they refuse, they raise.  [CompoundField.__set__] and
    [CompoundListField.__set__] print nothing;
    [CompoundDictField.__set__] prints one line for every value that is a
    mapping, accepted or not, and nothing for any other value. *)
Theorem set_footprint (obj : entity) (value : pyval) (s : state) :
  (∀ self,
     log (CompoundField.__set__ self obj value s).2 = log s
     ∧ stdout (CompoundField.__set__ self obj value s).2 = stdout s
     ∧ others_kept obj s (CompoundField.__set__ self obj value s).2)
  ∧ (∀ self,
       log (CompoundListField.__set__ self obj value s).2 = log s
       ∧ stdout (CompoundListField.__set__ self obj value s).2 = stdout s
       ∧ others_kept obj s (CompoundListField.__set__ self obj value s).2)
  ∧ (∀ self,
       log (CompoundDictField.__set__ self obj value s).2 = log s
       ∧ stdout (CompoundDictField.__set__ self obj value s).2
         = stdout s ++ match py_dict (heap s) value with
                       | Some _ => ["val"]
                       | None => []
                       end
       ∧ others_kept obj s (CompoundDictField.__set__ self obj value s).2).
Proof.
  assert (∀ s0 : state, others_kept obj s0 s0) as Hsame by (by intros s0 b o).
  split_and!; intros self.
  - unfold CompoundField.__set__.
    assert (∀ data value1,
      let r := (if negb (bool_decide
                           (CompoundValue.get_fields (CompoundField.d_value self)
                            = CompoundValue.get_fields value1))
                then match value with
                     | PyObj (PyCompound _ _ false) => raise err_no_d_value
                     | _ => raise err_assign_fields
                     end
                else do copied <- deepcopy data;
                     setitem (d_data obj) (KStr (CompoundField.d_key self))
                       copied) s in
      log r.2 = log s ∧ stdout r.2 = stdout s ∧ others_kept obj s r.2) as Hgo.
    { intros data value1. simpl.
      destruct (negb _); [by destruct value as [[| |? ? []]| |]|].
      unfold bind. pose proof (deepcopy_keeps data s) as Hk.
      destruct (deepcopy data s) as [[e|copied] s1]; simpl in *.
      - split_and!; [apply Hk|apply Hk|by apply keeps_others].
      - by apply store_footprint. }
    destruct value as [[v|dv d|cv d b]|l|d]; try done.
    + run. destruct d as [[]|]; try done; apply Hgo.
    + run. destruct d as [[[]|]|]; try done; apply Hgo.
  - unfold CompoundListField.__set__. run.
    destruct (py_list (heap s) value) as [items|]; [|done].
    destruct (_ || _); [done|].
    unfold bind. apply store_footprint, alloc_keeps. done.
  - unfold CompoundDictField.__set__. run.
    destruct (py_dict (heap s) value) as [items|];
      [|by rewrite app_nil_r].
    destruct (_ || _); [simpl; split_and!; [done|done|by intros b o]|].
    unfold bind. simpl.
    destruct (store_footprint obj (KStr (CompoundDictField.d_key self))
                (VRef (length (heap s))) (printed s)
                (State (heap s ++ [ODict (dict_of (prod_map id slice <$> items))])
                   (log s) (stdout s ++ ["val"])))
      as (Hlog & Hout & Hkept); [by apply (alloc_keeps _ _ (printed s))|].
    done.
Qed.

Lemma set_footprint_witness :
  heap (CompoundField.__set__ vehicle_field owner vehicle_view owner_store).2 !! 2
  = Some (ODict [(KStr "color", VPrim (PStr "blue")); (KStr "wheels", VRef 3)])
  ∧ stdout (CompoundDictField.__set__ named_cars fleet (PyObj (PyData (VRef 2)))
              fleet_store).2
    = ["val"].
Proof.
  split.
  - by apply (proj2 (proj2 (proj1 (set_footprint owner vehicle_view owner_store)
                              vehicle_field)) 2).
  - exact (proj1 (proj2 (proj2 (proj2 (set_footprint fleet
                                         (PyObj (PyData (VRef 2))) fleet_store))
                                 named_cars))).
Defined.

(** The readers look at the root document only, and at no other key than
    their own. *)
Lemma other_fields_root k h h' obj r root :
  d_data obj = VRef r →
  h !! r = Some (ODict root) →
  h' !! r = Some (ODict root)
  ∨ (∃ v, h' !! r = Some (ODict (dict_set (KStr k) v root))) →
  other_fields_same k h h' obj.
Proof.
  intros Hobj Hr Hr'.
  assert (∀ k', k' ≠ k →
            getitem h' (VRef r) k' = getitem h (VRef r) k'
            ∧ getitem_asserted h' (VRef r) k' = getitem_asserted h (VRef r) k')
    as Hsame.
  { intros k' Hk'.
    rewrite (getitem_root h _ _ _ Hr), (getitem_asserted_root h _ _ _ Hr).
    destruct Hr' as [Hr'|[v Hr']];
      rewrite (getitem_root h' _ _ _ Hr'), (getitem_asserted_root h' _ _ _ Hr');
      [done|].
    rewrite dict_get_set_ne; [done|congruence]. }
  unfold other_fields_same, CompoundField.__get__, ListField.__get__,
    DictField.__get__, CompoundListField.__get__, CompoundDictField.__get__.
  rewrite Hobj.
  split_and!; intros f Hf; destruct (Hsame _ Hf) as [H1 H2];
    by rewrite ?H1, ?H2.
Qed.

Lemma store_new_root s r root k o :
  heap s !! r = Some (ODict root) →
  heap (store_new s r root k o) !! r
  = Some (ODict (dict_set (KStr k) (VRef (length (heap s))) root))
  ∧ heap (store_new s r root k o) !! length (heap s) = Some o.
Proof.
  intros Hr. pose proof (lookup_lt_Some _ _ _ Hr) as Hlt.
  unfold store_new. simpl. split.
  - apply list_lookup_insert_eq. rewrite length_app. lia.
  - rewrite list_lookup_insert_ne by lia. apply lookup_last.
Qed.

(** What [CompoundField.__set__] leaves at the root document. *)
Lemma CompoundField_set_root (self : CompoundField.t) obj value s r root :
  d_data obj = VRef r →
  heap s !! r = Some (ODict root) →
  ∀ res s', CompoundField.__set__ self obj value s = (res, s') →
    match res with
    | inl _ => heap s' !! r = Some (ODict root)
    | inr _ =>
        ∃ data copied s1,
          getattr_d_data value = Some data
          ∧ deepcopy data s = (inr copied, s1)
          ∧ heap s' !! r
            = Some (ODict (dict_set (KStr (CompoundField.d_key self)) copied
                             root))
    end.
Proof.
  intros Hobj Hr res s'. unfold CompoundField.__set__.
  assert (∀ data value1,
    (if negb (bool_decide
                (CompoundValue.get_fields (CompoundField.d_value self)
                 = CompoundValue.get_fields value1))
     then match value with
          | PyObj (PyCompound _ _ false) => raise err_no_d_value
          | _ => raise err_assign_fields
          end
     else do copied <- deepcopy data;
          setitem (d_data obj) (KStr (CompoundField.d_key self)) copied) s
    = (res, s') →
    match res with
    | inl _ => heap s' !! r = Some (ODict root)
    | inr _ =>
        ∃ data' copied s1,
          Some data = Some data'
          ∧ deepcopy data' s = (inr copied, s1)
          ∧ heap s' !! r
            = Some (ODict (dict_set (KStr (CompoundField.d_key self)) copied
                             root))
    end) as Hgo.
  { intros data value1.
    destruct (negb _).
    { destruct value as [[| |? ? []]| |]; by intros [= <- <-]. }
    unfold bind. pose proof (deepcopy_keeps data s) as Hk.
    destruct (deepcopy data s) as [[e|copied] s1] eqn:Hcopy; simpl in Hk.
    - intros [= <- <-].
      rewrite (proj1 (proj2 Hk)); [done|by eapply lookup_lt_Some].
    - assert (heap s1 !! r = Some (ODict root)) as Hr1
        by (rewrite (proj1 (proj2 Hk)); [done|by eapply lookup_lt_Some]).
      rewrite Hobj, (setitem_dict _ _ _ _ _ Hr1). intros [= <- <-].
      exists data, copied, s1. split_and!; try done. simpl.
      apply list_lookup_insert_eq. by eapply lookup_lt_Some. }
  destruct value as [[v|dv d|cv d b]|l|d]; run;
    try (by intros [= <- <-]).
  - destruct d as [[]|]; try (by intros [= <- <-]); apply Hgo.
  - destruct d as [[[]|]|]; try (by intros [= <- <-]); apply Hgo.
Qed.

(** X5: an assignment is confined to its own key.  On an entity whose
    root document is a dict, whatever is assigned through one of the
    three [__set__] and whether it is accepted or refused, every field
    stored under another key reads afterwards as it did before, through
    each of the five [__get__]. *)
Theorem set_other_fields (obj : entity) (s : state) (r : addr)
  (root : list (key * datum)) (value : pyval) :
  d_data obj = VRef r →
  heap s !! r = Some (ODict root) →
  (∀ self,
     other_fields_same (CompoundField.d_key self) (heap s)
       (heap (CompoundField.__set__ self obj value s).2) obj)
  ∧ (∀ self,
       other_fields_same (CompoundListField.d_key self) (heap s)
         (heap (CompoundListField.__set__ self obj value s).2) obj)
  ∧ (∀ self,
       other_fields_same (CompoundDictField.d_key self) (heap s)
         (heap (CompoundDictField.__set__ self obj value s).2) obj).
Proof.
  intros Hobj Hr. split_and!; intros self;
    apply (other_fields_root _ _ _ _ r root Hobj Hr).
  - destruct (CompoundField.__set__ self obj value s) as [res s'] eqn:Hrun.
    pose proof (CompoundField_set_root self obj value s r root Hobj Hr _ _ Hrun)
      as H.
    destruct res as [e|[]]; [by left|].
    destruct H as (data & copied & s1 & _ & _ & H). right. by exists copied.
  - rewrite (CompoundListField_set_run self obj value s r root Hobj Hr).
    destruct (py_list (heap s) value) as [items|]; [|by left].
    destruct (forallb _ items); [|by left].
    right. eexists. by apply store_new_root.
  - rewrite (CompoundDictField_set_run self obj value s r root Hobj Hr).
    destruct (py_dict (heap s) value) as [items|]; [|by left].
    destruct (forallb _ items); [|by left].
    right. eexists. by apply (store_new_root (printed s)).
Qed.

Lemma set_other_fields_witness :
  CompoundListField.__get__ garage
    (heap (CompoundDictField.__set__ named_cars fleet (PyDict []) fleet_store).2)
    (Some fleet)
  = CompoundListField.__get__ garage (heap fleet_store) (Some fleet).
Proof.
  pose proof (set_other_fields fleet fleet_store 0 _ (PyDict []) eq_refl eq_refl)
    as (_ & _ & H).
  by apply (H named_cars).
Defined.

(** X6: what is assigned is what is read.  On an entity whose root
    document is a dict, whenever one of the three [__set__] returns,
    [__get__] of the same descriptor then gives a view bound to what was
    stored: for a compound list or dict field the new container, made of
    the slices of the elements assigned; for a compound field the deep
    copy of the slice of the value assigned. *)
Theorem set_then_get (obj : entity) (s : state) (r : addr)
  (root : list (key * datum)) (value : pyval) (s' : state) :
  d_data obj = VRef r →
  heap s !! r = Some (ODict root) →
  (∀ self,
     CompoundListField.__set__ self obj value s = (inr tt, s') →
     ∃ items,
       py_list (heap s) value = Some items
       ∧ CompoundListField.__get__ self (heap s') (Some obj)
         = inr (OnInstance (Bound self (VRef (length (heap s)))))
       ∧ heap s' !! length (heap s) = Some (OList (slice <$> items)))
  ∧ (∀ self,
       CompoundDictField.__set__ self obj value s = (inr tt, s') →
       ∃ items,
         py_dict (heap s) value = Some items
         ∧ CompoundDictField.__get__ self (heap s') (Some obj)
           = inr (OnInstance (Bound self (VRef (length (heap s)))))
         ∧ heap s' !! length (heap s)
           = Some (ODict (dict_of (prod_map id slice <$> items))))
  ∧ (∀ self,
       CompoundField.__set__ self obj value s = (inr tt, s') →
       ∃ data copied s1,
         getattr_d_data value = Some data
         ∧ deepcopy data s = (inr copied, s1)
         ∧ CompoundField.__get__ self (heap s') (Some obj)
           = inr (OnInstance (PyBound (CompoundField.d_value self) copied))).
Proof.
  intros Hobj Hr. split_and!; intros self.
  - rewrite (CompoundListField_set_run self obj value s r root Hobj Hr).
    destruct (py_list (heap s) value) as [items|]; [|done].
    destruct (forallb _ items); [|done]. intros [= <-].
    destruct (store_new_root s r root (CompoundListField.d_key self)
                (OList (slice <$> items)) Hr) as [Hroot Hnew].
    exists items. split_and!; try done.
    unfold CompoundListField.__get__.
    by rewrite Hobj, (getitem_asserted_root _ _ _ _ Hroot), dict_get_set.
  - rewrite (CompoundDictField_set_run self obj value s r root Hobj Hr).
    destruct (py_dict (heap s) value) as [items|]; [|done].
    destruct (forallb _ items); [|done]. intros [= <-].
    destruct (store_new_root (printed s) r root (CompoundDictField.d_key self)
                (ODict (dict_of (prod_map id slice <$> items))) Hr)
      as [Hroot Hnew].
    exists items. split_and!; try done.
    unfold CompoundDictField.__get__.
    by rewrite Hobj, (getitem_asserted_root _ _ _ _ Hroot), dict_get_set.
  - intros Hrun.
    destruct (CompoundField_set_root self obj value s r root Hobj Hr _ _ Hrun)
      as (data & copied & s1 & Hdata & Hcopy & Hroot).
    exists data, copied, s1. split_and!; try done.
    unfold CompoundField.__get__.
    by rewrite Hobj, (getitem_asserted_root _ _ _ _ Hroot), dict_get_set.
Qed.

Lemma set_then_get_witness :
  ∃ copied s1,
    deepcopy (VRef 2) owner_store = (inr copied, s1)
    ∧ CompoundField.__get__ vehicle_field
        (heap (CompoundField.__set__ vehicle_field owner vehicle_view
                 owner_store).2)
        (Some owner)
      = inr (OnInstance (PyBound vehicle copied)).
Proof.
  destruct (proj2 (proj2 (set_then_get owner owner_store 0 _ vehicle_view
                            (CompoundField.__set__ vehicle_field owner
                               vehicle_view owner_store).2
                            eq_refl eq_refl))
              vehicle_field)
    as (data & copied & s1 & Hdata & Hcopy & Hget);
    [by vm_compute|].
  injection Hdata as <-. by exists copied, s1.
Defined.

(** ** Defaults and input of the wrong shape *)

(** X7: the default of a container field goes through its own filter and
    pruning untouched.  For each of the four container fields, the
    default is a new empty container; filtering it, with [error] set or
    not, raises nothing, reports nothing and never calls the validator or
    the nested schema (the dict variants answer with one more new empty
    dict, the list variants with the default itself); and pruning what
    comes out says to leave the field out exactly when [store_default] is
    not set. *)
Theorem default_round (error : bool) (s : state) :
  (∀ self,
     (do d <- ListField.get_default_data self;
      do v <- ListField.filter_input self d error;
      do b <- ListField.prune_data self v;
      ret (d, v, b)) s
     = (inr (VRef (length (heap s)), VRef (length (heap s)),
             negb (ListField._store_default self)),
        State (heap s ++ [OList []]) (log s) (stdout s)))
  ∧ (∀ self,
       (do d <- CompoundListField.get_default_data self;
        do v <- CompoundListField.filter_input self d error;
        do b <- CompoundListField.prune_data self v;
        ret (d, v, b)) s
       = (inr (VRef (length (heap s)), VRef (length (heap s)),
               negb (CompoundListField._store_default self)),
          State (heap s ++ [OList []]) (log s) (stdout s)))
  ∧ (∀ self,
       (do d <- DictField.get_default_data self;
        do v <- DictField.filter_input self d error;
        do b <- DictField.prune_data self v;
        ret (d, v, b)) s
       = (inr (VRef (length (heap s)), VRef (S (length (heap s))),
               negb (DictField._store_default self)),
          State (heap s ++ [ODict []; ODict []]) (log s) (stdout s)))
  ∧ (∀ self,
       (do d <- CompoundDictField.get_default_data self;
        do v <- CompoundDictField.filter_input self d error;
        do b <- CompoundDictField.prune_data self v;
        ret (d, v, b)) s
       = (inr (VRef (length (heap s)), VRef (S (length (heap s))),
               negb (CompoundDictField._store_default self)),
          State (heap s ++ [ODict []; ODict []]) (log s) (stdout s))).
Proof.
  assert (∀ (h : list obj) x y, (h ++ [x]) ++ [y] = h ++ [x; y]) as Happ
    by (intros; by rewrite <- app_assoc).
  assert (∀ (h : list obj) x y, (h ++ [x; y]) !! length h = Some x) as H0.
  { intros. rewrite lookup_app_r, Nat.sub_diag; [done|lia]. }
  assert (∀ (h : list obj) x y, (h ++ [x; y]) !! S (length h) = Some y) as H1.
  { intros. rewrite lookup_app_r by lia.
    by replace (S (length h) - length h) with 1 by lia. }
  split_and!; intros self.
  - unfold ListField.get_default_data, ListField.filter_input,
      ListField.prune_data, expect_list, alloc, as_list, deref. run.
    repeat (rewrite ?lookup_last; simpl). done.
  - unfold CompoundListField.get_default_data, CompoundListField.filter_input,
      CompoundListField.prune_data, expect_list, alloc, as_list, deref. run.
    repeat (rewrite ?lookup_last; simpl). done.
  - unfold DictField.get_default_data, DictField.filter_input,
      DictField.prune_data, expect_dict, alloc, as_dict, deref. run.
    repeat (rewrite ?lookup_last, ?Happ, ?H0, ?H1, ?length_app; simpl).
    replace (length (heap s) + 1) with (S (length (heap s))) by lia.
    repeat (rewrite ?lookup_last, ?Happ, ?H0, ?H1; simpl). done.
  - unfold CompoundDictField.get_default_data, CompoundDictField.filter_input,
      CompoundDictField.prune_data, expect_dict, alloc, as_dict, values,
      as_dict, deref. run.
    repeat (rewrite ?lookup_last, ?Happ, ?H0, ?H1, ?length_app; simpl).
    replace (length (heap s) + 1) with (S (length (heap s))) by lia.
    repeat (rewrite ?lookup_last, ?Happ, ?H0, ?H1; simpl). done.
Qed.

(** X8: input of the wrong shape.  Given anything but a dict,
    [DictField.filter_input] and [CompoundDictField.filter_input] raise
    the dict mismatch and change nothing when [error] is set; otherwise
    they report the datum once and answer with a new empty dict (the
    second of two they make).  Given anything but a list,
    [CompoundListField.filter_input] does the same with the list mismatch
    and one new empty list.  Neither the validator nor the nested schema
    is called. *)
Theorem filter_input_wrong_shape (data : datum) (error : bool) (s : state) :
  (as_dict (heap s) data = None →
   (∀ self,
      DictField.filter_input self data error s
      = if error then (inl err_dict_expected, s)
        else (inr (VRef (S (length (heap s)))),
              State (heap s ++ [ODict []; ODict []])
                    (log s ++ [LogError msg_non_dict data]) (stdout s)))
   ∧ (∀ self,
        CompoundDictField.filter_input self data error s
        = if error then (inl err_dict_expected, s)
          else (inr (VRef (S (length (heap s)))),
                State (heap s ++ [ODict []; ODict []])
                      (log s ++ [LogError msg_non_dict data]) (stdout s))))
  ∧ (as_list (heap s) data = None →
     ∀ self,
       CompoundListField.filter_input self data error s
       = if error then (inl err_list_expected, s)
         else (inr (VRef (length (heap s))),
               State (heap s ++ [OList []])
                     (log s ++ [LogError msg_non_list data]) (stdout s))).
Proof.
  assert (∀ (h : list obj) x y, (h ++ [x]) ++ [y] = h ++ [x; y]) as Happ
    by (intros; by rewrite <- app_assoc).
  assert (∀ (h : list obj) x y, (h ++ [x; y]) !! length h = Some x) as H0.
  { intros. rewrite lookup_app_r, Nat.sub_diag; [done|lia]. }
  split; [intros Hnone; split|intros Hnone]; intros self.
  - unfold DictField.filter_input, bind at 1.
    rewrite (expect_dict_other _ _ _ Hnone).
    destruct error; [done|].
    unfold alloc, as_dict, deref. run.
    rewrite !Happ, H0, length_app. simpl.
    by replace (length (heap s) + 1) with (S (length (heap s))) by lia.
  - unfold CompoundDictField.filter_input, bind at 1.
    rewrite (expect_dict_other _ _ _ Hnone).
    destruct error; [done|].
    unfold alloc, as_dict, deref. run.
    rewrite !Happ, H0, length_app. simpl.
    by replace (length (heap s) + 1) with (S (length (heap s))) by lia.
  - unfold CompoundListField.filter_input, bind at 1.
    rewrite (expect_list_other _ _ _ Hnone).
    destruct error; [done|].
    unfold as_list, deref. run. by rewrite lookup_last.
Qed.

Lemma filter_input_wrong_shape_witness :
  DictField.filter_input scores (VPrim (PInt 3)) false wheels_store
  = (inr (VRef 2),
     State (heap wheels_store ++ [ODict []; ODict []])
           [LogError msg_non_dict (VPrim (PInt 3))] [])
  ∧ CompoundDictField.filter_input named_cars (VRef 0) true wheels_store
    = (inl err_dict_expected, wheels_store)
  ∧ CompoundListField.filter_input garage (VRef 0) true scores_store
    = (inl err_list_expected, scores_store).
Proof.
  split_and!.
  - apply (proj1 (proj1 (filter_input_wrong_shape (VPrim (PInt 3)) false
                           wheels_store) eq_refl) scores).
  - apply (proj2 (proj1 (filter_input_wrong_shape (VRef 0) true wheels_store)
                    eq_refl) named_cars).
  - apply (proj2 (filter_input_wrong_shape (VRef 0) true scores_store) eq_refl
             garage).
Defined.

(** ** Filtering the input of the compound containers *)

Lemma dict_set_keys k v d k0 :
  k0 ∈ (dict_set k v d).*1 ↔ k0 = k ∨ k0 ∈ d.*1.
Proof.
  induction d as [|[k' v'] d IH]; simpl.
  - rewrite list_elem_of_singleton. split; [by left|].
    intros [?|H]; [done|]. by apply elem_of_nil in H.
  - case_bool_decide as Hk; simpl.
    + subst k'. rewrite !elem_of_cons. tauto.
    + rewrite !elem_of_cons, IH. tauto.
Qed.

Lemma dict_set_NoDup k v d : NoDup d.*1 → NoDup (dict_set k v d).*1.
Proof.
  induction d as [|[k' v'] d IH]; simpl.
  - intros _. apply NoDup_singleton.
  - rewrite NoDup_cons. intros [Hk' Hd].
    case_bool_decide as Hk; simpl.
    + by apply NoDup_cons.
    + apply NoDup_cons. split; [|by apply IH].
      rewrite dict_set_keys. by intros [?|?].
Qed.

(** The loop of the dict variants over a result mapping that the
    filter of the values does not reach: the mapping gains validly-typed
    keys of the items only, each once, and all of them when the loop gets
    to its end; and the loop raises only for a key of another type, when
    [error] is set, or what the filter of a value raised. *)
Lemma filter_items_keys keytype (f : datum → M datum) error shown out items :
  (∀ kv, kv ∈ items → ∀ s r s' o,
     heap s !! out = Some o → f kv.2 s = (r, s') → heap s' !! out = Some o) →
  ∀ acc s r s',
    heap s !! out = Some (ODict acc) →
    filter_items keytype f error shown out items s = (r, s') →
    (∃ acc',
       heap s' !! out = Some (ODict acc')
       ∧ (NoDup acc.*1 → NoDup acc'.*1)
       ∧ (∀ k, k ∈ acc'.*1 →
            k ∈ acc.*1 ∨ (k ∈ items.*1 ∧ isinstance k keytype = true))
       ∧ (∀ u, r = inr u →
            (∀ k, k ∈ acc.*1 ∨ (k ∈ items.*1 ∧ isinstance k keytype = true) →
               k ∈ acc'.*1)
            ∧ (error = true →
               Forall (λ k, isinstance k keytype = true) items.*1)))
    ∧ (∀ e, r = inl e →
         (e = err_invalid_key ∧ error = true
          ∧ Exists (λ k, isinstance k keytype = false) items.*1)
         ∨ (∃ kv s0 s1,
              kv ∈ items ∧ isinstance kv.1 keytype = true
              ∧ f kv.2 s0 = (inl e, s1))).
Proof.
  induction items as [|[k v] items IH]; intros Hf acc s r s' Hout.
  - intros [= <- <-]. split; [|done].
    exists acc. split_and!; try done.
    + intros k Hk. by left.
    + intros u _. split; [|by constructor].
      intros k [Hk|[Hk _]]; [done|]. by apply elem_of_nil in Hk.
  - assert (∀ kv, kv ∈ items → ∀ s r s' o,
              heap s !! out = Some o → f kv.2 s = (r, s') →
              heap s' !! out = Some o) as Hf'.
    { intros kv Hkv. apply Hf. by right. }
    simpl. destruct (isinstance k keytype) eqn:Hk; simpl.
    + unfold bind at 1. destruct (f v s) as [[e|v'] s1] eqn:Hv.
      * intros [= <- <-].
        pose proof (Hf (k, v) (list_elem_of_here _ _) s _ _ _ Hout Hv) as Hout1.
        split.
        -- exists acc. split_and!; try done. intros k0 Hk0. by left.
        -- intros e0 [= <-]. right. exists (k, v), s, s1.
           split_and!; [by left|done|done].
      * pose proof (Hf (k, v) (list_elem_of_here _ _) s _ _ _ Hout Hv) as Hout1.
        unfold bind at 1. rewrite (setitem_dict _ _ _ _ _ Hout1).
        intros Hrun.
        assert (<[out := ODict (dict_set k v' acc)]> (heap s1) !! out
                = Some (ODict (dict_set k v' acc))) as Hout2
          by (apply list_lookup_insert_eq; by eapply lookup_lt_Some).
        destruct (IH Hf' (dict_set k v' acc)
                    (State (<[out := ODict (dict_set k v' acc)]> (heap s1))
                       (log s1) (stdout s1)) r s' Hout2 Hrun)
          as [(acc' & Hout' & Hnodup & Hsub & Hall) Hfail].
        split.
        -- exists acc'. split_and!; try done.
           ++ intros Hacc. by apply Hnodup, dict_set_NoDup.
           ++ intros k0 Hk0. destruct (Hsub k0 Hk0) as [Hin|[Hin Hty]].
              ** apply dict_set_keys in Hin as [->|Hin]; [|by left].
                 right. split; [|done]. simpl. by left.
              ** right. split; [|done]. simpl. by right.
           ++ intros u Hu. destruct (Hall u Hu) as [Hall1 Hall2]. split.
              ** intros k0 [Hin|[Hin Hty]].
                 --- apply Hall1. left. apply dict_set_keys. by right.
                 --- simpl in Hin. apply elem_of_cons in Hin as [->|Hin].
                     +++ apply Hall1. left. apply dict_set_keys. by left.
                     +++ apply Hall1. by right.
              ** intros Herr. simpl. constructor; [done|by apply Hall2].
        -- intros e He.
           destruct (Hfail e He) as [(-> & Herr & Hex)|(kv & s0 & s2 & Hin & H)].
           ++ left. split_and!; try done. simpl. by apply Exists_cons_tl.
           ++ right. exists kv, s0, s2. split; [by right|done].
    + destruct error.
      * intros [= <- <-]. split.
        -- exists acc. split_and!; try done. intros k0 Hk0. by left.
        -- intros e [= <-]. left. split_and!; try done.
           simpl. by apply Exists_cons_hd.
      * unfold bind at 1, logging_error. simpl. intros Hrun.
        destruct (IH Hf' acc
                    (State (heap s) (log s ++ [LogError msg_invalid_key shown])
                       (stdout s)) r s' Hout Hrun)
          as [(acc' & Hout' & Hnodup & Hsub & Hall) Hfail].
        split.
        -- exists acc'. split_and!; try done.
           ++ intros k0 Hk0. destruct (Hsub k0 Hk0) as [Hin|[Hin Hty]];
                [by left|].
              right. split; [|done]. simpl. by right.
           ++ intros u Hu. destruct (Hall u Hu) as [Hall1 Hall2].
              split; [|done].
              intros k0 [Hin|[Hin Hty]].
              ** apply Hall1. by left.
              ** simpl in Hin. apply elem_of_cons in Hin as [->|Hin];
                   [congruence|].
                 apply Hall1. by right.
        -- intros e He.
           destruct (Hfail e He) as [(_ & Herr & _)|(kv & s0 & s2 & Hin & H)];
             [done|].
           right. exists kv, s0, s2. split; [by right|done].
Qed.

(** X9: the key policy of [CompoundDictField.filter_input].  For a
    mapping, and a nested schema whose filter does not reach the mapping
    being built: when the call returns, the result is that new mapping;
    its keys are the keys of the input that are instances of the declared
    key type, each once and no other; and with [error] set every key of
    the input is such an instance.  When the call raises, it raises the
    key mismatch, [error] being set and some key being of another type,
    or else what the nested filter raised for the value of a
    validly-typed key. *)
Theorem CompoundDictField_filter_input_keys (self : CompoundDictField.t)
  (a : addr) (items : list (key * datum)) (error : bool) (s : state)
  (r : exn + datum) (s' : state) :
  heap s !! a = Some (ODict items) →
  (∀ kv, kv ∈ items → ∀ s0 r0 s1 o,
     heap s0 !! length (heap s) = Some o →
     CompoundValue.filter_input (CompoundDictField.d_value self) kv.2 error s0
     = (r0, s1) →
     heap s1 !! length (heap s) = Some o) →
  CompoundDictField.filter_input self (VRef a) error s = (r, s') →
  (∀ v, r = inr v →
     v = VRef (length (heap s))
     ∧ ∃ d,
         heap s' !! length (heap s) = Some (ODict d)
         ∧ NoDup d.*1
         ∧ (∀ k, k ∈ d.*1
                 ↔ k ∈ items.*1
                   ∧ isinstance k (CompoundDictField.d_keytype self) = true)
         ∧ (error = true →
            Forall (λ k, isinstance k (CompoundDictField.d_keytype self) = true)
              items.*1))
  ∧ (∀ e, r = inl e →
       (e = err_invalid_key ∧ error = true
        ∧ Exists (λ k, isinstance k (CompoundDictField.d_keytype self) = false)
            items.*1)
       ∨ (∃ kv s0 s1,
            kv ∈ items
            ∧ isinstance kv.1 (CompoundDictField.d_keytype self) = true
            ∧ CompoundValue.filter_input (CompoundDictField.d_value self) kv.2
                error s0 = (inl e, s1))).
Proof.
  intros Ha Hf. rewrite (CompoundDictField_filter_input_run _ _ _ _ _ Ha).
  unfold bind.
  destruct (filter_items _ _ _ _ _ _ _) as [res s2] eqn:Hloop.
  assert ((heap s ++ [ODict []]) !! length (heap s) = Some (ODict []))
    as Hnew by apply lookup_last.
  destruct (filter_items_keys _ _ _ _ _ _ Hf []
              (State (heap s ++ [ODict []]) (log s) (stdout s)) _ _ Hnew Hloop)
    as [(d & Hout & Hnodup & Hsub & Hall) Hfail].
  destruct res as [e|u]; intros [= <- <-]; split; try done.
  - intros e0 [= <-]. by apply Hfail.
  - intros v [= <-]. destruct (Hall u eq_refl) as [Hall1 Hall2].
    split; [done|]. exists d. split_and!; try done.
    + apply Hnodup. constructor.
    + intros k. split.
      * intros Hk. destruct (Hsub k Hk) as [Hin|Hin]; [|done].
        by apply elem_of_nil in Hin.
      * intros Hk. apply Hall1. by right.
Qed.

Lemma CompoundDictField_filter_input_keys_witness :
  ∃ d,
    heap (CompoundDictField.filter_input named_cars (VRef 0) true
            named_store).2 !! 2
    = Some (ODict d)
    ∧ NoDup d.*1
    ∧ ∀ k, k ∈ d.*1 ↔ k ∈ [KStr "mine"] ∧ isinstance k Tstr = true.
Proof.
  destruct (CompoundDictField.filter_input named_cars (VRef 0) true named_store)
    as [[e|v] s'] eqn:Hrun; [by vm_compute in Hrun|].
  destruct (CompoundDictField_filter_input_keys named_cars 0
              [(KStr "mine", VRef 1)] true named_store (inr v) s' eq_refl)
    as [Hret _]; [|done|].
  - intros kv Hkv s0 r s1 o Hs0.
    apply list_elem_of_singleton in Hkv as ->.
    by apply record_filter_input_frame.
  - destruct (Hret v eq_refl) as (_ & d & Hd & Hnodup & Hkeys & _).
    by exists d.
Defined.

(** The loop of the list variants over a list that the filter of the
    entries does not reach: the list keeps its length, an entry the loop
    got past holds what the filter returned for it, and the others are as
    they were; and the loop raises only what the filter of an entry
    raised. *)
Lemma filter_entries_in_place (f : datum → M datum) a rest :
  (∀ x, x ∈ rest → ∀ s r s' o,
     heap s !! a = Some o → f x s = (r, s') → heap s' !! a = Some o) →
  ∀ seen s r s',
    heap s !! a = Some (OList (seen ++ rest)) →
    filter_entries f a (length seen) rest s = (r, s') →
    (∃ rest',
       heap s' !! a = Some (OList (seen ++ rest'))
       ∧ Forall2 (λ x y, y = x ∨ ∃ s0 s1, f x s0 = (inr y, s1)) rest rest'
       ∧ (∀ u, r = inr u →
            Forall2 (λ x y, ∃ s0 s1, f x s0 = (inr y, s1)) rest rest'))
    ∧ (∀ e, r = inl e → ∃ x s0 s1, x ∈ rest ∧ f x s0 = (inl e, s1)).
Proof.
  induction rest as [|x rest IH]; intros Hf seen s r s' Ha.
  - intros [= <- <-]. split; [by exists []|done].
  - assert (∀ x, x ∈ rest → ∀ s r s' o,
              heap s !! a = Some o → f x s = (r, s') → heap s' !! a = Some o)
      as Hf'.
    { intros y Hy. apply Hf. by right. }
    simpl. unfold bind at 1. destruct (f x s) as [[e|v] s1] eqn:Hx.
    + intros [= <- <-].
      pose proof (Hf x (list_elem_of_here _ _) s _ _ _ Ha Hx) as Ha1.
      split.
      * exists (x :: rest). split_and!; try done.
        apply Forall2_same_length_lookup_2; [done|].
        intros i y z Hy Hz. left. congruence.
      * intros e0 [= <-]. exists x, s, s1. split; [by left|done].
    + pose proof (Hf x (list_elem_of_here _ _) s _ _ _ Ha Hx) as Ha1.
      unfold bind at 1, list_setitem, bind at 1, get_heap. simpl.
      rewrite Ha1. unfold put_heap. simpl.
      replace (<[length seen := v]> (seen ++ x :: rest))
        with ((seen ++ [v]) ++ rest).
      2:{ rewrite insert_app_r_alt, Nat.sub_diag by lia.
          by rewrite <- app_assoc. }
      replace (S (length seen)) with (length (seen ++ [v]))
        by (rewrite length_app; simpl; lia).
      intros Hrun.
      assert (<[a := OList ((seen ++ [v]) ++ rest)]> (heap s1) !! a
              = Some (OList ((seen ++ [v]) ++ rest))) as Ha2
        by (apply list_lookup_insert_eq; by eapply lookup_lt_Some).
      destruct (IH Hf' (seen ++ [v])
                  (State (<[a := OList ((seen ++ [v]) ++ rest)]> (heap s1))
                     (log s1) (stdout s1)) r s' Ha2 Hrun)
        as [(rest' & Ha' & Hsome & Hall) Hfail].
      split.
      * exists (v :: rest'). split_and!.
        -- by rewrite <- app_assoc in Ha'.
        -- constructor; [|done]. right. by exists s, s1.
        -- intros u Hu. constructor; [|by apply (Hall u)]. by exists s, s1.
      * intros e He. destruct (Hfail e He) as (y & s0 & s2 & Hy & H).
        exists y, s0, s2. split; [by right|done].
Qed.

(** X10: [CompoundListField.filter_input] works in place.  For a list,
    and a nested schema whose filter does not reach the list itself,
    whatever the outcome the list object is still a list of the same
    length, each entry being either what the nested filter returned for
    the entry that was at that place, or that entry, untouched.  When the
    call returns, it returns the list itself with every entry replaced by
    what the nested filter returned for it; when it raises, it raises
    what the nested filter raised for one of the entries. *)
Theorem CompoundListField_filter_input_in_place (self : CompoundListField.t)
  (a : addr) (l : list datum) (error : bool) (s : state)
  (r : exn + datum) (s' : state) :
  heap s !! a = Some (OList l) →
  (∀ x, x ∈ l → ∀ s0 r0 s1 o,
     heap s0 !! a = Some o →
     CompoundValue.filter_input (CompoundListField.d_value self) x error s0
     = (r0, s1) →
     heap s1 !! a = Some o) →
  CompoundListField.filter_input self (VRef a) error s = (r, s') →
  (∃ l',
     heap s' !! a = Some (OList l')
     ∧ length l' = length l
     ∧ Forall2 (λ x y,
         y = x
         ∨ ∃ s0 s1,
             CompoundValue.filter_input (CompoundListField.d_value self) x error
               s0 = (inr y, s1)) l l'
     ∧ (∀ v, r = inr v →
          v = VRef a
          ∧ Forall2 (λ x y,
              ∃ s0 s1,
                CompoundValue.filter_input (CompoundListField.d_value self) x
                  error s0 = (inr y, s1)) l l'))
  ∧ (∀ e, r = inl e →
       ∃ x s0 s1,
         x ∈ l
         ∧ CompoundValue.filter_input (CompoundListField.d_value self) x error
             s0 = (inl e, s1)).
Proof.
  intros Ha Hf. unfold CompoundListField.filter_input, bind at 1.
  rewrite (expect_list_list _ _ _ _ Ha).
  unfold bind at 1, get_heap, as_list. simpl. rewrite Ha. simpl.
  unfold bind.
  destruct (filter_entries _ a 0 l s) as [res s2] eqn:Hloop.
  destruct (filter_entries_in_place _ a l Hf [] s res s2 Ha Hloop)
    as [(l' & Ha' & Hsome & Hall) Hfail].
  simpl in Ha'.
  destruct res as [e|[]]; intros [= <- <-]; split; try done.
  - exists l'. split_and!; try done. symmetry. by eapply Forall2_length.
  - intros e0 [= <-]. by apply Hfail.
  - exists l'. split_and!; try done.
    + symmetry. by eapply Forall2_length.
    + intros v [= <-]. split; [done|]. by apply (Hall tt).
Qed.

Lemma CompoundListField_filter_input_in_place_witness :
  ∃ l',
    heap (CompoundListField.filter_input garage (VRef 0) true garage_store).2
      !! 0
    = Some (OList l')
    ∧ length l' = 2.
Proof.
  destruct (CompoundListField.filter_input garage (VRef 0) true garage_store)
    as [r s'] eqn:Hrun.
  destruct (CompoundListField_filter_input_in_place garage 0 [VRef 1; VRef 2]
              true garage_store r s' eq_refl)
    as [(l' & Hl' & Hlen & _) _]; [|done|by exists l'].
  intros x Hx s0 r0 s1 o Hs0.
  apply record_filter_input_frame.
  - apply elem_of_cons in Hx as [->|Hx]; [done|].
    by apply list_elem_of_singleton in Hx as ->.
  - done.
Defined.

(** ** Filtering what was filtered *)

Lemma ListField_filter_input_run (self : ListField.t) a l error s :
  heap s !! a = Some (OList l) →
  ListField.filter_input self (VRef a) error s
  = bind (filter_entries
            (λ entry, TypedValue.call_filter_input (ListField.d_value self)
                        entry error)
            a 0 l)
         (λ _, ret (VRef a)) s.
Proof.
  intros Ha. unfold ListField.filter_input, bind at 1.
  rewrite (expect_list_list _ _ _ _ Ha).
  unfold bind at 1, get_heap, as_list. simpl. by rewrite Ha.
Qed.

(** A loop over the entries that gets to its end has had every entry
    accepted. *)
Lemma filter_entries_returns tv error a i rest s s' :
  filter_entries (λ entry, TypedValue.call_filter_input tv entry error)
    a i rest s = (inr tt, s') →
  Forall (λ x, accepts tv error x = true) rest.
Proof.
  revert i s. induction rest as [|x rest IH]; intros i s; [by constructor|].
  simpl. intros (v & s1 & Hx & Hrun)%bind_inr.
  apply bind_inr in Hrun as (u & s2 & _ & Hrun).
  constructor; [|by eapply IH].
  unfold TypedValue.call_filter_input in Hx. unfold accepts.
  injection Hx as Hx _. by rewrite Hx.
Qed.

Lemma settled_filtered tv error x :
  settled tv error →
  accepts tv error x = true →
  accepts tv error (filtered tv error x) = true
  ∧ filtered tv error (filtered tv error x) = filtered tv error x
  ∧ (TypedValue.filter_input tv (filtered tv error x) error).1 = [].
Proof.
  intros Hs Hx. unfold accepts, filtered in *.
  destruct (TypedValue.filter_input tv x error).2 as [e|y] eqn:Hy; [done|].
  by rewrite (Hs x y Hy).
Qed.

Lemma settled_list tv error l :
  settled tv error →
  Forall (λ x, accepts tv error x = true) l →
  Forall (λ x, accepts tv error x = true) (filtered tv error <$> l)
  ∧ filtered tv error <$> (filtered tv error <$> l) = filtered tv error <$> l
  ∧ reports tv error (filtered tv error <$> l) = [].
Proof.
  intros Hs. unfold reports.
  induction 1 as [|x l Hx Hl (IH1 & IH2 & IH3)]; [done|].
  destruct (settled_filtered tv error x Hs Hx) as (H1 & H2 & H3).
  rewrite !fmap_cons. split_and!.
  - by constructor.
  - by rewrite H2, IH2.
  - simpl. by rewrite H3, IH3.
Qed.

(** A dict loop that gets to its end has met no failure. *)
Lemma filter_items_returns keytype tv error shown out items acc s s' :
  heap s !! out = Some (ODict acc) →
  filter_items keytype (λ val, TypedValue.call_filter_input tv val error)
    error shown out items s = (inr tt, s') →
  Forall (λ kv, entry_failure keytype tv error kv = None) items.
Proof.
  intros Hout Hrun.
  destruct (decide (Forall (λ kv, entry_failure keytype tv error kv = None)
                      items)) as [|Hno]; [done|].
  apply not_Forall_Exists in Hno; [|apply _].
  destruct (first_failure (entry_failure keytype tv error) items)
    as (pre & kv & post & e & -> & Hpre & Hkv).
  { eapply Exists_impl; [exact Hno|]. by intros kv Hkv. }
  by rewrite (filter_items_first_failure _ _ _ _ _ _ _ _ _ _ _ Hout Hpre Hkv)
    in Hrun.
Qed.

Lemma dict_set_entries k v d kv :
  kv ∈ dict_set k v d → kv = (k, v) ∨ kv ∈ d.
Proof.
  induction d as [|[k' v'] d IH]; simpl.
  - intros ->%list_elem_of_singleton. by left.
  - case_bool_decide as Hk; simpl.
    + subst k'. rewrite !elem_of_cons. tauto.
    + rewrite !elem_of_cons. intros [->|Hin]; [tauto|].
      destruct (IH Hin); tauto.
Qed.

Lemma dict_of_entries items kv : kv ∈ dict_of items → kv ∈ items.
Proof.
  unfold dict_of.
  assert (∀ acc, kv ∈ foldl (λ d kv, dict_set kv.1 kv.2 d) acc items →
                 kv ∈ acc ∨ kv ∈ items) as H.
  { induction items as [|[k v] items IH]; intros acc; simpl; [by left|].
    intros [Hin|Hin]%IH.
    - apply dict_set_entries in Hin as [->|Hin]; [right; by left|by left].
    - right. by right. }
  intros Hin. destruct (H [] Hin) as [Hnil|]; [|done].
  by apply elem_of_nil in Hnil.
Qed.

Lemma dict_of_NoDup items : NoDup (dict_of items).*1.
Proof.
  unfold dict_of.
  assert (∀ acc, NoDup acc.*1 →
                 NoDup (foldl (λ d kv, dict_set kv.1 kv.2 d) acc items).*1)
    as H.
  { induction items as [|[k v] items IH]; intros acc Hacc; simpl; [done|].
    by apply IH, dict_set_NoDup. }
  apply H. constructor.
Qed.

(** A mapping of validly-typed keys and settled values goes through the
    loop as it is. *)
Lemma settled_dict keytype tv error shown (d : list (key * datum)) :
  Forall (λ kv, isinstance kv.1 keytype = true
                ∧ TypedValue.filter_input tv kv.2 error = ([], inr kv.2)) d →
  Forall (λ kv, entry_failure keytype tv error kv = None) d
  ∧ kept keytype tv error d = d
  ∧ concat (entry_reports keytype tv error shown <$> d) = [].
Proof.
  unfold kept.
  induction 1 as [|[k v] d [Hk Hv] Hd (IH1 & IH2 & IH3)]; [done|].
  simpl in *. split_and!.
  - constructor; [|done]. unfold entry_failure. simpl. by rewrite Hk, Hv.
  - rewrite filter_cons. simpl. rewrite decide_True by done.
    rewrite fmap_cons, IH2. simpl. unfold filtered. by rewrite Hv.
  - unfold entry_reports at 1. simpl. by rewrite Hk, Hv.
Qed.

(** X11: filtering what was filtered changes nothing.  For a validator
    that lets its own results through as they are: when
    [ListField.filter_input] has returned for a list, calling it again on
    its result returns the same list and leaves the store and the log as
    they are; when [DictField.filter_input] has returned for a mapping,
    calling it again on its result reports nothing and returns one more
    new mapping with the same entries in the same order. *)
Theorem filter_input_settles (error : bool) (a : addr) (s : state)
  (v : datum) (s' : state) :
  (∀ (self : ListField.t) l,
     heap s !! a = Some (OList l) →
     settled (ListField.d_value self) error →
     ListField.filter_input self (VRef a) error s = (inr v, s') →
     ListField.filter_input self v error s' = (inr v, s'))
  ∧ (∀ (self : DictField.t) items,
       heap s !! a = Some (ODict items) →
       settled (DictField.d_value self) error →
       DictField.filter_input self (VRef a) error s = (inr v, s') →
       ∃ d,
         deref (heap s') v = Some (ODict d)
         ∧ DictField.filter_input self v error s'
           = (inr (VRef (length (heap s'))),
              State (heap s' ++ [ODict d]) (log s') (stdout s'))).
Proof.
  split.
  - intros self l Ha Hs. rewrite (ListField_filter_input_run _ _ _ _ _ Ha).
    intros (u & s1 & Hloop & [= <- <-])%bind_inr. destruct u.
    pose proof (filter_entries_returns _ _ _ _ _ _ _ Hloop) as Hall.
    pose proof (filter_entries_accepted (ListField.d_value self) error a [] l s
                  Ha Hall) as Hloop1.
    simpl in Hloop1. rewrite Hloop1 in Hloop. injection Hloop as <-.
    destruct (settled_list _ _ _ Hs Hall) as (Hall2 & Hfix & Hrep).
    pose proof (lookup_lt_Some _ _ _ Ha) as Hlt.
    set (tv := ListField.d_value self) in *.
    set (s1 := State (<[a := OList (filtered tv error <$> l)]> (heap s))
                 (log s ++ reports tv error l) (stdout s)).
    assert (heap s1 !! a = Some (OList (filtered tv error <$> l))) as Ha1
      by (by apply list_lookup_insert_eq).
    rewrite (ListField_filter_input_run _ _ _ _ _ Ha1). unfold bind.
    assert (filter_entries
              (λ entry, TypedValue.call_filter_input (ListField.d_value self)
                          entry error)
              a 0 (filtered tv error <$> l) s1
            = (inr tt,
               State (<[a := OList (filtered tv error
                                      <$> (filtered tv error <$> l))]>
                        (heap s1))
                     (log s1 ++ reports tv error (filtered tv error <$> l))
                     (stdout s1))) as Hloop2
      by apply (filter_entries_accepted tv error a [] _ s1 Ha1 Hall2).
    rewrite Hloop2, Hfix, Hrep, app_nil_r. unfold s1. simpl.
    by rewrite list_insert_insert_eq.
  - intros self items Ha Hs.
    rewrite (DictField_filter_input_run _ _ _ _ _ Ha).
    intros (u & s1 & Hloop & [= <- <-])%bind_inr. destruct u.
    set (tv := DictField.d_value self) in *.
    set (keytype := DictField._keytype self) in *.
    assert ((heap s ++ [ODict []]) !! length (heap s) = Some (ODict []))
      as Hnew by apply lookup_last.
    pose proof (filter_items_returns keytype tv error (VRef a) (length (heap s))
                  items [] (State (heap s ++ [ODict []]) (log s) (stdout s)) _
                  Hnew Hloop) as Hall.
    rewrite (filter_items_no_failure keytype tv error (VRef a) (length (heap s))
               [] items (State (heap s ++ [ODict []]) (log s) (stdout s))
               Hnew Hall) in Hloop.
    injection Hloop as <-. simpl.
    rewrite insert_last, lookup_last.
    fold (dict_of (kept keytype tv error items)).
    set (d := dict_of (kept keytype tv error items)).
    exists d. split; [done|].
    assert (Forall (λ kv, isinstance kv.1 keytype = true
                          ∧ TypedValue.filter_input tv kv.2 error
                            = ([], inr kv.2)) d) as Hd.
    { apply Forall_forall. intros kv Hin.
      apply dict_of_entries in Hin.
      unfold kept in Hin.
      apply list_elem_of_fmap in Hin as ([k x] & -> & Hin).
      apply list_elem_of_filter in Hin as [Hk Hin]. simpl in *.
      split; [done|].
      rewrite Forall_forall in Hall. specialize (Hall _ Hin).
      unfold entry_failure in Hall. simpl in Hall. rewrite Hk in Hall.
      unfold filtered.
      destruct (TypedValue.filter_input tv x error).2 as [e|y] eqn:Hy;
        [done|].
      apply (Hs x y Hy). }
    destruct (settled_dict keytype tv error (VRef (length (heap s))) d Hd)
      as (Hno & Hkept & Hrep).
    set (s1 := State (heap s ++ [ODict d])
                 (log s ++ concat (entry_reports keytype tv error (VRef a)
                                     <$> items)) (stdout s)).
    assert (heap s1 !! length (heap s) = Some (ODict d)) as Hd1
      by apply lookup_last.
    rewrite (DictField_filter_input_run _ _ _ _ _ Hd1). unfold bind.
    assert ((heap s1 ++ [ODict []]) !! length (heap s1) = Some (ODict []))
      as Hnew1 by apply lookup_last.
    fold tv keytype.
    rewrite (filter_items_no_failure keytype tv error (VRef (length (heap s)))
               (length (heap s1)) [] d
               (State (heap s1 ++ [ODict []]) (log s1) (stdout s1)) Hnew1 Hno).
    simpl. rewrite Hkept, Hrep, app_nil_r, insert_last.
    fold (dict_of d). rewrite dict_of_distinct; [done|].
    apply dict_of_NoDup.
Qed.

Lemma simple_value_settled default store_default (accepted : prim → bool) error :
  accepted default = true →
  settled (simple_value default store_default accepted) error.
Proof.
  intros Hdefault x y. unfold simple_value. simpl.
  destruct x as [p|b]; [destruct (accepted p) eqn:Hp|]; destruct error;
    simpl; intros [= <-]; by rewrite ?Hp, ?Hdefault.
Qed.

Lemma filter_input_settles_witness :
  ListField.filter_input wheels (VRef 0) false
    (ListField.filter_input wheels (VRef 0) false wheels_store).2
  = (inr (VRef 0),
     (ListField.filter_input wheels (VRef 0) false wheels_store).2).
Proof.
  destruct (ListField.filter_input wheels (VRef 0) false wheels_store)
    as [[e|v] s'] eqn:Hrun; [by vm_compute in Hrun|].
  pose proof (ListField_filter_input_same wheels 0 _ false wheels_store v s'
                eq_refl Hrun) as Hv.
  pose proof (proj1 (filter_input_settles false 0 wheels_store v s') wheels _
                eq_refl (simple_value_settled _ _ _ _ eq_refl) Hrun) as H.
  by rewrite Hv in H.
Defined.
